(** * hapi-hooks: a shallow embedding of the hook scheduler

    The plugin stores "hooks" (jobs) in a Mongo collection, polls the
    collection on a timer, runs the server methods configured for each hook
    and writes the per-action results back.

    Sources embedded here:
    - [src/index.js]: [updateHooks] with the per-hook task table
      ([logHook], [performActions], [completeHook], [logComplete]), the
      [hook] method and the polling [timer];
    - the later revision of the plugin entry point (batching, back-pressure,
      [retryHook]) and the library files it loads: the due-hook query, the
      tick pipeline ([outstandingHooks], [logHooks], [hooks], [execute]);
    - [src/lib/retry.js].

    Asynchrony is modelled with an explicit timer queue: every handler is
    described by what it does with its callback and when, the iteratee of
    [async.each] registers timers, and the queue is drained in firing
    order. *)

From Stdlib Require Import ZArith Lia Ascii.
From stdpp Require Import base list gmap strings sorting.

(** ** JavaScript values *)

Module Js.

Inductive JsVal : Type :=
| VUndefined
| VNull
| VBool (b : bool)
| VNum (n : Z)
| VStr (s : string)
| VError (code message : string).

(** What [if (v)] tests. *)
Definition truthy (v : JsVal) : bool :=
  match v with
  | VUndefined | VNull => false
  | VBool b => b
  | VNum n => negb (n =? 0)%Z
  | VStr s => negb (String.eqb s "")
  | VError _ _ => true
  end.

(** [Object.assign(target, source)]: the fields of [source] are written
    into [target], which is returned; on a key of both, [source] wins. *)
Definition object_assign (target source : gmap string JsVal)
  : gmap string JsVal := source ∪ target.

(** The error [async.timeout] passes to the callback at the deadline. *)
Definition ETIMEDOUT : JsVal :=
  VError "ETIMEDOUT" "Callback function timed out.".

End Js.
Export Js.

(** ** Documents of the collection *)

Inductive Status : Type := waiting | processing | complete | failed.

#[global] Instance Status_eq_dec : EqDecision Status.
Proof. solve_decision. Defined.

(** One element of a hook's [results]: [{ action, output }] or
    [{ action, error }]. *)
Inductive Entry : Type :=
| EOutput (action : string) (output : JsVal)
| EError (action : string) (error : JsVal).

Definition entry_action (e : Entry) : string :=
  match e with EOutput a _ | EError a _ => a end.

Definition is_error (e : Entry) : bool :=
  match e with EError _ _ => true | EOutput _ _ => false end.

(** A hook document.  [runAfter] and [attempts] are fields of the later
    revisions; a document written by [src/index.js] has neither. *)
Record Doc : Type := mkDoc {
  _id : nat;
  hookName : string;
  hookData : gmap string JsVal;
  status : Status;
  results : option (list Entry);
  added : Z;
  completedOn : option Z;
  runAfter : option Z;
  attempts : nat
}.

Definition Collection : Type := list Doc.

(** [collection.update({ _id }, { $set: ... })]: the first document with
    that [_id] is rewritten, the others are left alone. *)
Fixpoint update (id : nat) (set : Doc → Doc) (c : Collection) : Collection :=
  match c with
  | [] => []
  | d :: c' => if decide (_id d = id) then set d :: c'
               else d :: update id set c'
  end.

(** [collection.findOne({ _id })]: [null] when nothing matches. *)
Definition findOne (id : nat) (c : Collection) : option Doc :=
  List.find (λ d, bool_decide (_id d = id)) c.

(** Identifier given by the store to an inserted document. *)
Definition fresh_id (c : Collection) : nat :=
  S (foldr (λ d m, Nat.max (_id d) m) 0 c).

Definition set_status (s : Status) (d : Doc) : Doc :=
  mkDoc (_id d) (hookName d) (hookData d) s (results d) (added d)
        (completedOn d) (runAfter d) (attempts d).

(** ** Configuration and host *)

(** An entry of a hook's action list: a method name, or
    [{ method, data }] with default parameters. *)
Inductive Action : Type :=
| ActString (name : string)
| ActObject (method : string) (data : gmap string JsVal).

(** What an invoked handler does with the callback it is given: it throws
    before returning; or it calls the callback, once, [delay] milliseconds
    after it was invoked ([0]: before it returns), with [error] and
    [output]; or it never calls it. *)
Inductive Behaviour : Type :=
| Throws (name message : string)
| CallsBack (delay : nat) (error output : JsVal)
| Never.

Definition Handler : Type := gmap string JsVal → Behaviour.

Record Server : Type := mkServer {
  (** [server.methods], keyed by dotted path as [lodash.get] reads it. *)
  methods : gmap string Handler;
  (** [str2fn.execute(expression, server.methods, context, callback)]. *)
  str2fn_execute : string → gmap string JsVal → Behaviour
}.

Record Settings : Type := mkSettings {
  timeout : option nat;          (* [false] is [None] *)
  interval : nat;
  log : bool;
  batchSize : nat;
  maxRetries : nat;
  hooks : gmap string (list Action)
}.

(** What the plugin does to the outside world, in order. *)
Inductive Effect : Type :=
| LogError (e : JsVal)
| LogDebug (tag : string) (hook : nat)
| LogNewHook (name : string)
| LogStatus (nprocessing : nat)
| LogWarning (nprocessing : nat)
| Emit (event : string)
| Invoke (action : string) (payload : gmap string JsVal)
| SetTimeout (ms : nat).

(** ** The action executor: [performActions] of [src/index.js] *)

(** The object [performActions] fills in: [results] grows by [push], and
    [status] stays [undefined] until some action fails. *)
Record UpdateHook : Type := mkUpdateHook {
  upd_results : list Entry;
  upd_status : option Status
}.

(** The callback given to a handler (lines 92-101; lines 77-85 for a call
    expression). *)
Definition settle (action : string) (error output : JsVal) (u : UpdateHook)
  : UpdateHook :=
  if truthy error
  then mkUpdateHook (upd_results u ++ [EError action error]) (Some failed)
  else mkUpdateHook (upd_results u ++ [EOutput action output]) (upd_status u).

(** The [catch] clause (lines 102-106). *)
Definition caught (action name message : string) (u : UpdateHook)
  : UpdateHook :=
  mkUpdateHook
    (upd_results u ++ [EError action (VStr (name +:+ " " +:+ message +:+ " "))])
    (Some failed).

(** A callback waiting in the timer queue.  [t_answered] tells whether
    [eachDone] has already been called for the action when the timer is
    set: this is so for the timer an [async.timeout] wrapper leaves armed
    when its method throws into the [catch] clause. *)
Record Timer : Type := mkTimer {
  fires : nat;
  t_action : string;
  t_error : JsVal;
  t_output : JsVal;
  t_answered : bool
}.

(** Timers fire by increasing time; timers of equal time fire in the order
    they were set. *)
Fixpoint add_timer (t : Timer) (q : list Timer) : list Timer :=
  match q with
  | [] => [t]
  | t' :: q' => if fires t <? fires t' then t :: q else t' :: add_timer t q'
  end.

(** An uncaught exception. *)
Inductive Raised : Type := Raise (name message : string).

(** State of one [performActions] run while [async.each] starts the
    actions. *)
Record Exec : Type := mkExec {
  updateHook : UpdateHook;
  timers : list Timer;
  unsettled : nat;              (* actions whose [eachDone] never comes *)
  calls : list Effect;
  raised : option Raised
}.

(** [action[action.length - 1] === ')' && action.indexOf('(') > -1] *)
Definition is_call_expression (action : string) : bool :=
  match String.get (String.length action - 1) action with
  | Some c =>
      Ascii.eqb c ")"%char
      && match String.index 0 "(" action with Some _ => true | None => false end
  | None => false
  end.

(** [settings.timeout ? ... : ...]: the deadline in force, if any. *)
Definition deadline (s : Settings) : option nat :=
  match timeout s with
  | Some (S n) => Some (S n)
  | _ => None
  end.

(** [async.timeout(fn, ms)], called with a callback: what the caller sees
    of the call, and whether the timer of the wrapper is still armed when
    the call has returned or thrown.  The wrapper sets its timer and then
    calls [fn].  A handler that answers before [ms] has its answer passed
    on and the timer cleared; one that answers at [ms] or later, or never,
    loses to the timer, which calls back with the timeout error.  An
    exception of [fn] leaves the wrapper before anything clears the timer:
    the caller gets the exception, and the timer stays armed ([true]), to
    call back with the timeout error at [ms]. *)
Definition async_timeout (ms : nat) (b : Behaviour) : Behaviour * bool :=
  match b with
  | Throws n m => (Throws n m, true)
  | CallsBack d e o =>
      (if d <? ms then CallsBack d e o else CallsBack ms ETIMEDOUT VUndefined,
       false)
  | Never => (CallsBack ms ETIMEDOUT VUndefined, false)
  end.

(** Line 89, which stands before the [try]: with a timeout set,
    [async.timeout] is applied to [get(server.methods, action)] and reads a
    property of its argument; for a missing method this throws. *)
Definition wrap_throws (srv : Server) (s : Settings) (action : string)
  : option Raised :=
  match deadline s, methods srv !! action with
  | Some _, None =>
      Some (Raise "TypeError"
              "Cannot read property 'Symbol(Symbol.toStringTag)' of undefined")
  | _, _ => None
  end.

(** The call of line 92, as the [try] sees it: the method itself with the
    timeout off, the wrapper of line 89 otherwise.  With the timeout off a
    missing method is [undefined], and calling it throws.  (For a missing
    method under a timeout the exception is the one of line 89: the call
    of line 92 is not reached, see [wrap_throws] and [iteratee].) *)
Definition actionCall (srv : Server) (s : Settings) (action : string)
    (actionData : gmap string JsVal) : Behaviour :=
  match methods srv !! action, deadline s with
  | Some fn, Some ms => (async_timeout ms (fn actionData)).1
  | Some fn, None => fn actionData
  | None, Some _ =>
      Throws "TypeError"
             "Cannot read property 'Symbol(Symbol.toStringTag)' of undefined"
  | None, None => Throws "TypeError" "actionCall is not a function"
  end.

(** The timer the call of line 92 leaves armed behind it, with the time at
    which it fires. *)
Definition leftover (srv : Server) (s : Settings) (action : string)
    (actionData : gmap string JsVal) : option nat :=
  match methods srv !! action, deadline s with
  | Some fn, Some ms =>
      if (async_timeout ms (fn actionData)).2 then Some ms else None
  | _, _ => None
  end.

(** What happens to a callback-style call once it has been made. *)
Definition await (action : string) (b : Behaviour) (x : Exec) : Exec :=
  match b with
  | CallsBack 0 e o =>
      mkExec (settle action e o (updateHook x)) (timers x) (unsettled x)
             (calls x) (raised x)
  | CallsBack (S d) e o =>
      mkExec (updateHook x)
             (add_timer (mkTimer (S d) action e o false) (timers x))
             (unsettled x) (calls x) (raised x)
  | Never =>
      mkExec (updateHook x) (timers x) (S (unsettled x)) (calls x) (raised x)
  | Throws n m =>
      mkExec (updateHook x) (timers x) (unsettled x) (calls x)
             (Some (Raise n m))
  end.

Definition invoked (action : string) (payload : gmap string JsVal) (x : Exec)
  : Exec :=
  mkExec (updateHook x) (timers x) (unsettled x)
         (calls x ++ [Invoke action payload]) (raised x).

(** An exception leaves the iteratee. *)
Definition escapes (r : Raised) (x : Exec) : Exec :=
  mkExec (updateHook x) (timers x) (unsettled x) (calls x) (Some r).

(** The timer a wrapper has left armed stays in the queue; the action has
    been answered for by the [catch] clause. *)
Definition arm (at_ms : option nat) (action : string) (q : list Timer)
  : list Timer :=
  match at_ms with
  | Some ms => add_timer (mkTimer ms action ETIMEDOUT VUndefined true) q
  | None => q
  end.

(** The iteratee of [async.each] (lines 67-107) on one action.  It returns
    the action entry as it is left in the configuration: for an object
    entry [Object.assign(action.data, actionData)] writes into the entry's
    own [data].  An exception of [str2fn.execute] or of line 89 is not
    caught: it leaves the iteratee and [async.each], and the actions that
    follow are not started. *)
Definition iteratee (srv : Server) (s : Settings) (data : gmap string JsVal)
    (a : Action) (x : Exec) : Action * Exec :=
  match raised x with
  | Some _ => (a, x)
  | None =>
      let '(action, actionData, a') :=
        match a with
        | ActString name => (name, data, a)
        | ActObject method d =>
            let merged := object_assign d data in
            (method, merged, ActObject method merged)
        end in
      if is_call_expression action then
        (a', await action (str2fn_execute srv action (object_assign ∅ data))
                   (invoked action (object_assign ∅ data) x))
      else
        match wrap_throws srv s action with
        | Some r => (a', escapes r x)
        | None =>
            match actionCall srv s action actionData with
            | Throws n m =>
                let x' := invoked action actionData x in
                (a', mkExec (caught action n m (updateHook x'))
                            (arm (leftover srv s action actionData) action
                                 (timers x'))
                            (unsettled x') (calls x') (raised x'))
            | b => (a', await action b (invoked action actionData x))
            end
        end
  end.

(** [async.each(actions, iteratee, ...)]: every action is started, in
    order, before any timer fires. *)
Fixpoint each (srv : Server) (s : Settings) (data : gmap string JsVal)
    (actions : list Action) (x : Exec) : list Action * Exec :=
  match actions with
  | [] => ([], x)
  | a :: rest =>
      let '(a', x') := iteratee srv s data a x in
      let '(rest', x'') := each srv s data rest x' in
      (a' :: rest', x'')
  end.

(** The timers whose callback brings the first [eachDone] of its action. *)
Definition live (q : list Timer) : list Timer :=
  List.filter (λ t, negb (t_answered t)) q.

(** The timers fire, in order, for as long as the final callback of
    [async.each] has not been called: [awaited] counts the actions whose
    [eachDone] is still to come.  The timer of an action already answered
    for pushes its entry like any other; its [eachDone] is the second for
    that action, which [async.each] refuses (its guard throws inside the
    timer callback) and does not count. *)
Fixpoint fire (q : list Timer) (awaited : nat) (u : UpdateHook) : UpdateHook :=
  match q, awaited with
  | t :: q', S n =>
      fire q' (if t_answered t then S n else n)
           (settle (t_action t) (t_error t) (t_output t) u)
  | _, _ => u
  end.

(** How a [performActions] run ends: its [done] is called with the
    [updateHook], as it is at that moment; or some handler never answers
    and [done] is never called; or an exception escapes the iteratee. *)
Inductive Outcome : Type :=
| Done (u : UpdateHook)
| Stalled (u : UpdateHook)
| Uncaught (r : Raised).

Definition set_hooks (h : gmap string (list Action)) (s : Settings) : Settings :=
  mkSettings (timeout s) (interval s) (log s) (batchSize s) (maxRetries s) h.

Definition actions_of (s : Settings) (name : string) : list Action :=
  default [] (hooks s !! name).

Definition action_name (a : Action) : string :=
  match a with ActString name => name | ActObject method _ => method end.

Definition start (srv : Server) (s : Settings) (hook : Doc)
  : list Action * Exec :=
  each srv s (hookData hook) (actions_of s (hookName hook))
       (mkExec (mkUpdateHook [] None) [] 0 [] None).

(** [performActions] (lines 62-111): the configuration as the run leaves
    it, the handler calls made, and the outcome. *)
Definition performActions (srv : Server) (s : Settings) (hook : Doc)
  : Settings * list Effect * Outcome :=
  let '(actions', x) := start srv s hook in
  let s' := match hooks s !! hookName hook with
            | Some _ => set_hooks (<[hookName hook := actions']> (hooks s)) s
            | None => s
            end in
  let u := fire (timers x) (length (live (timers x)) + unsettled x)
                (updateHook x) in
  (s', calls x,
   match raised x with
   | Some r => Uncaught r
   | None => if decide (unsettled x = 0) then Done u else Stalled u
   end).

(** ** The per-hook task table of [updateHooks] (lines 47-132)

    [logHook], then [performActions], then [completeHook], then
    [logComplete].  The later revisions call [./executeHook] for each
    hook; that file is not among the sources, and this table stands for
    it where they are embedded. *)

(** Errors the store answers with, one per write of the table. *)
Record Faults : Type := mkFaults {
  logHook_err : option JsVal;
  completeHook_err : option JsVal
}.

Definition no_faults : Faults := mkFaults None None.

(** [logHook] (lines 50-60): the error of the update is logged and [done]
    is called without it. *)
Definition logHook (s : Settings) (err : option JsVal) (h : Doc)
    (c : Collection) : Collection * list Effect :=
  (match err with
   | None => update (_id h) (set_status processing) c
   | Some _ => c
   end,
   match err with Some e => [LogError e] | None => [] end
   ++ (if log s then [LogDebug "starting-hook" (_id h)] else [])).

(** The [$set] of [completeHook]. *)
Definition set_completed (r : list Entry) (st : Status) (now : Z) (d : Doc)
  : Doc :=
  mkDoc (_id d) (hookName d) (hookData d) st (Some r) (added d) (Some now)
        (runAfter d) (attempts d).

(** [(previous.performActions.status === 'failed') ? 'failed' : 'complete'] *)
Definition final_status (previous : UpdateHook) : Status :=
  if decide (upd_status previous = Some failed) then failed else complete.

(** [completeHook] (lines 113-121): the error of the update goes to
    [done]. *)
Definition completeHook (now : Z) (err : option JsVal) (h : Doc)
    (previous : UpdateHook) (c : Collection) : Collection * option JsVal :=
  match err with
  | None =>
      (update (_id h)
              (set_completed (upd_results previous) (final_status previous) now)
              c,
       None)
  | Some e => (c, Some e)
  end.

(** [logComplete] (lines 122-131). *)
Definition logComplete (s : Settings) (h : Doc) : list Effect :=
  if log s then [LogDebug "complete" (_id h)] else [].

Record HookRun : Type := mkHookRun {
  run_settings : Settings;
  run_store : Collection;
  run_effects : list Effect;
  run_outcome : Outcome;
  run_error : option JsVal
}.

Definition executeHook (srv : Server) (s : Settings) (f : Faults) (now : Z)
    (h : Doc) (c : Collection) : HookRun :=
  let '(c1, e1) := logHook s (logHook_err f) h c in
  let '(s', e2, out) := performActions srv s h in
  match out with
  | Done u =>
      let '(c2, err) := completeHook now (completeHook_err f) h u c1 in
      mkHookRun s' c2
        (e1 ++ e2 ++ match err with None => logComplete s h | Some _ => [] end)
        out err
  | _ => mkHookRun s' c1 (e1 ++ e2) out None
  end.

(** [async.each(hooks, ...)] of the tick pipeline, and the per-hook stage
    of [automap]: the hooks of a batch, taken one after the other (each
    works on its own document).  [announce] says whether ['hook:start'] is
    emitted, as the tick pipeline does. *)
Fixpoint execute (srv : Server) (s : Settings) (f : nat → Faults) (now : Z)
    (announce : bool) (batch : list Doc) (c : Collection)
  : Settings * Collection * list Effect * list (Outcome * option JsVal) :=
  match batch with
  | [] => (s, c, [], [])
  | h :: rest =>
      let r := executeHook srv s (f (_id h)) now h c in
      let '(s', c', e, outs) :=
        execute srv (run_settings r) f now announce rest (run_store r) in
      (s', c',
       (if announce then [Emit "hook:start"] else []) ++ run_effects r ++ e,
       (run_outcome r, run_error r) :: outs)
  end.

Definition is_done (o : Outcome) : bool :=
  match o with Done _ => true | _ => false end.

(** What the final callback of a batch is called with, if it is called:
    the first error, or nothing once every hook is through. *)
Definition batch_callback (outs : list (Outcome * option JsVal))
  : option (option JsVal) :=
  match List.find (λ r, bool_decide (is_Some r.2)) outs with
  | Some r => Some r.2
  | None => if forallb (λ r, is_done r.1) outs then Some None else None
  end.

(** One polling cycle as seen from outside: what it leaves behind, the
    hooks it fetched, and what its final callback is called with (if it is
    called). *)
Record Tick : Type := mkTick {
  tick_settings : Settings;
  tick_store : Collection;
  tick_effects : list Effect;
  tick_fetched : list Doc;
  tick_allDone : option (option JsVal)
}.

(** [updateHooks] of [src/index.js] (lines 29-136): every hook with status
    ['waiting'] is fetched; an error or an empty answer ends the cycle at
    once. *)
Definition updateHooks (srv : Server) (s : Settings) (f : nat → Faults)
    (dbErr : option JsVal) (now : Z) (c : Collection) : Tick :=
  match dbErr with
  | Some e => mkTick s c [] [] (Some (Some e))
  | None =>
      match List.filter (λ d, bool_decide (status d = waiting)) c with
      | [] => mkTick s c [] [] (Some None)
      | batch =>
          let '(s', c', e, outs) := execute srv s f now false batch c in
          mkTick s' c' e batch (batch_callback outs)
      end
  end.

(** ** Enqueueing: [hook] of [src/index.js] (lines 138-156) *)

(** The property names every object literal inherits from
    [Object.prototype].  Each holds a function ([__proto__]: the prototype
    itself), which is truthy. *)
Definition Object_prototype : list string :=
  ["constructor"; "hasOwnProperty"; "isPrototypeOf"; "propertyIsEnumerable";
   "toLocaleString"; "toString"; "valueOf"; "__proto__";
   "__defineGetter__"; "__defineSetter__"; "__lookupGetter__";
   "__lookupSetter__"].

(** [settings.hooks[hookName]], as [if (!...)] on line 140 tests it.  The
    property read goes through the prototype chain: it finds the action
    list of a configured name (an array, truthy also when empty) or else
    what the name inherits. *)
Definition hook_exists (s : Settings) (name : string) : bool :=
  bool_decide (is_Some (hooks s !! name))
  || bool_decide (name ∈ Object_prototype).

Definition hook (s : Settings) (insertErr : option JsVal) (now : Z)
    (name : string) (data : gmap string JsVal) (c : Collection)
  : Collection * list Effect :=
  if negb (hook_exists s name) then (c, [])
  else
    (match insertErr with
     | None => c ++ [mkDoc (fresh_id c) name data waiting None now None None 0]
     | Some _ => c
     end,
     match insertErr with Some e => [LogError e] | None => [] end
     ++ (if log s then [LogNewHook name] else [])).

(** ** The polling loop of [src/index.js] (lines 165-187)

    The state the loop lives in: the flag, the calls of [timer] that
    [setTimeout] holds, and the runs of [updateHooks] whose callback has
    not been called yet. *)

Record Loop : Type := mkLoop {
  continueProcessing : bool;
  pending : nat;
  in_flight : nat
}.

Inductive LoopEvent : Type :=
| TimerFires                      (* a [setTimeout(timer, ...)] elapses *)
| CycleCompletes (err : option JsVal)  (* [updateHooks] calls its callback *)
| PreStop.                        (* the server's [onPreStop] extension *)

(** [timer] (lines 174-186), up to the call of [updateHooks]. *)
Definition timer (l : Loop) : Loop :=
  if negb (continueProcessing l) then l
  else mkLoop (continueProcessing l) (pending l) (S (in_flight l)).

(** The callback [timer] gives to [updateHooks] (lines 178-185). *)
Definition cycle_callback (s : Settings) (err : option JsVal) (l : Loop)
  : Loop * list Effect :=
  let logged := match err with Some e => [LogError e] | None => [] end in
  if continueProcessing l
  then (mkLoop true (S (pending l)) (in_flight l), logged ++ [SetTimeout (interval s)])
  else (l, logged).

(** [onPreStop] (lines 167-173). *)
Definition onPreStop (l : Loop) : Loop :=
  mkLoop false (pending l) (in_flight l).

Definition loop_step (s : Settings) (l : Loop) (ev : LoopEvent)
  : option (Loop * list Effect) :=
  match ev with
  | TimerFires =>
      match pending l with
      | 0 => None
      | S p => Some (timer (mkLoop (continueProcessing l) p (in_flight l)), [])
      end
  | CycleCompletes err =>
      match in_flight l with
      | 0 => None
      | S n => Some (cycle_callback s err
                (mkLoop (continueProcessing l) (pending l) n))
      end
  | PreStop => Some (onPreStop l, [])
  end.

(** [register] calls [timer()] once. *)
Definition loop_init : Loop := timer (mkLoop true 0 0).

Fixpoint loop_run (s : Settings) (l : Loop) (evs : list LoopEvent)
  : option Loop :=
  match evs with
  | [] => Some l
  | ev :: evs' =>
      match loop_step s l ev with
      | Some (l', _) => loop_run s l' evs'
      | None => None
      end
  end.

(** ** The tick pipeline of the later revision

    [outstandingHooks], [logHooks], [hooks], [execute], run by
    [async.autoInject]. *)

Module ProcessHooks.

Record Counts : Type := mkCounts {
  cnt_processing : nat;
  cnt_waiting : nat;
  cnt_completed : nat
}.

Definition count_status (st : Status) (c : Collection) : nat :=
  length (List.filter (λ d, bool_decide (status d = st)) c).

(** Modelled from the spec: [./hookStatus] (and [./lib/logHooks.js], which
    the entry point calls to the same end) is not among the sources.  The
    tick starts by querying how many hooks are outstanding, in particular
    those with status [processing]; the counts are taken over the
    collection.  The tick functions below take the answer as an argument
    ([outstanding], [current]); this is the answer a collection gives. *)
Definition hookStatus (c : Collection) : Counts :=
  mkCounts (count_status processing c) (count_status waiting c)
           (count_status complete c).

(** The [logHooks] step: [proceed] and what is emitted and logged. *)
Definition logHooks (s : Settings) (outstanding : Counts) : bool * list Effect :=
  let proceed := bool_decide (cnt_processing outstanding = 0) in
  (proceed,
   [Emit "hook:query"]
   ++ (if log s then [LogStatus (cnt_processing outstanding)] else [])
   ++ (if negb proceed && log s
       then [LogWarning (cnt_processing outstanding)] else [])).

(** The filter of the query:
    [{ status: { $in: ['waiting', 'failed'] }, runAfter: { $lte: new Date() } }].
    A document without [runAfter] does not match. *)
Definition due (now : Z) (d : Doc) : bool :=
  bool_decide (status d = waiting ∨ status d = failed)
  && match runAfter d with
     | Some t => (t <=? now)%Z
     | None => false
     end.

(** [cursor.limit(n)]: a limit of [0] is no limit. *)
Definition limit (n : nat) (l : list Doc) : list Doc :=
  match n with
  | 0 => l
  | S _ => take n l
  end.

(** The query of the [hooks] step and of [queryHooks]. *)
Definition find_due (s : Settings) (now : Z) (c : Collection) : list Doc :=
  limit (batchSize s) (List.filter (due now) c).

(** The [hooks] step: nothing is read while hooks are still processing. *)
Definition hooks (s : Settings) (now : Z) (findErr : option JsVal)
    (logHooks : bool) (c : Collection) : JsVal + list Doc :=
  if negb logHooks then inr []
  else match findErr with
       | Some e => inl e
       | None => inr (find_due s now c)
       end.

(** The pipeline; [outstanding] is what the [outstandingHooks] step got
    from [hookStatus]. *)
Definition processHooks (srv : Server) (s : Settings) (f : nat → Faults)
    (outstanding : Counts) (findErr : option JsVal) (now : Z) (c : Collection)
  : Tick :=
  let '(proceed, e1) := logHooks s outstanding in
  match hooks s now findErr proceed c with
  | inl err => mkTick s c e1 [] (Some (Some err))
  | inr batch =>
      let '(s', c', e2, outs) := execute srv s f now true batch c in
      mkTick s' c' (e1 ++ e2) batch (batch_callback outs)
  end.

End ProcessHooks.

(** ** The later entry point: [queryHooks] and its [timer] *)

Module Batching.

Import ProcessHooks.

(** [queryHooks]: the same query; an error or an empty answer ends the
    cycle at once. *)
Definition queryHooks (srv : Server) (s : Settings) (f : nat → Faults)
    (dbErr : option JsVal) (now : Z) (c : Collection) : Tick :=
  match dbErr with
  | Some e => mkTick s c [] [] (Some (Some e))
  | None =>
      match find_due s now c with
      | [] => mkTick s c [] [] (Some None)
      | batch =>
          let '(s', c', e, outs) := execute srv s f now false batch c in
          mkTick s' c' e batch (batch_callback outs)
      end
  end.

(** One call of [timer].  [countErr] and [current] are what [logHooks]
    calls back with.  [continueProcessing] is read when the call starts
    and again when [queryHooks] calls back; [stopped] tells whether
    [onPreStop] ran in between. *)
Definition timer (srv : Server) (s : Settings) (f : nat → Faults)
    (countErr : option JsVal) (current : Counts) (dbErr : option JsVal)
    (now : Z) (continueProcessing stopped : bool) (c : Collection) : Tick :=
  if negb continueProcessing then mkTick s c [] [] None
  else
    let e1 := match countErr with Some e => [LogError e] | None => [] end
              ++ (if log s then [LogStatus (cnt_processing current)] else []) in
    if negb (bool_decide (cnt_processing current = 0))
    then mkTick s c (e1 ++ [SetTimeout (interval s)]) [] None
    else
      let q := queryHooks srv s f dbErr now c in
      mkTick (tick_settings q) (tick_store q)
        (e1 ++ tick_effects q
         ++ match tick_allDone q with
            | Some err =>
                match err with Some e => [LogError e] | None => [] end
                ++ (if negb stopped then [SetTimeout (interval s)] else [])
            | None => []
            end)
        (tick_fetched q) (tick_allDone q).

End Batching.

(** ** Retrying one hook: [src/lib/retry.js] and [retryHook]

    [retry.js] exports, on its line 7, an arrow function with an empty
    body.  The [async.autoInject] statement of lines 8-31 stands after it,
    outside the function: it is no part of what a call of [retry] does. *)

Module Retry.

Record RetryRun : Type := mkRetryRun {
  retry_store : Collection;
  retry_effects : list Effect;
  (** what [allDone] is called with, if it is called *)
  retry_allDone : option (option JsVal * option UpdateHook)
}.

(** [module.exports = (collection, hookId, allDone) => {}]: the call
    returns at once; the collection is not touched and [allDone] is not
    called. *)
Definition retry (c : Collection) (hookId : nat) : RetryRun :=
  mkRetryRun c [] None.

(** What the caller of [retryHook] is called back with. *)
Inductive Reply : Type :=
| ReplyError (err : JsVal)
| ReplyResult (performActions : option UpdateHook).

(** The callback [retryHook] hands to [retry]:
    [if (err) return callback(err); callback(err, response.performActions)]. *)
Definition retryHook_callback (err : JsVal) (response : option UpdateHook)
  : Reply :=
  if truthy err then ReplyError err else ReplyResult response.

(** [retryHook(hookId, callback)] of the later entry point: the run of
    [retry], and what [callback] is called with, if it is called. *)
Definition retryHook (c : Collection) (hookId : nat)
  : RetryRun * option Reply :=
  let r := retry c hookId in
  (r,
   match retry_allDone r with
   | Some (err, response) =>
       Some (retryHook_callback (default VNull err) response)
   | None => None
   end).

End Retry.

(** ** The first revision of the plugin: activities

    [updateActivities] with its per-activity task table, the [activity]
    method and the polling [timer].  A document has the layout of [Doc],
    with [activityName] and [activityData] where a hook has [hookName] and
    [hookData]; the table [settings.activities] maps a name to a list of
    method names. *)

Module Activities.

Record Settings : Type := mkSettings {
  timeout : option nat;          (* [false] is [None] *)
  interval : nat;
  log : bool;
  activities : gmap string (list string)
}.

(** [settings.timeout ? ... : ...] *)
Definition deadline (s : Settings) : option nat :=
  match timeout s with
  | Some (S n) => Some (S n)
  | _ => None
  end.

(** [server.methods[action]]: a plain property read.  A method registered
    under a dotted name is nested in [server.methods], and this read does
    not find it. *)
Definition own_method (srv : Server) (action : string) : option Handler :=
  match String.index 0 "." action with
  | Some _ => None
  | None => methods srv !! action
  end.

(** Lines 68-69, as the iteratee sees them: the method itself with the
    timeout off, its [async.timeout] wrapper otherwise.  A missing method
    makes line 68 throw under a timeout (the wrapper reads a property of
    it) and line 69 with the timeout off (it is called). *)
Definition actionCall (srv : Server) (s : Settings) (action : string)
    (activityData : gmap string JsVal) : Behaviour :=
  match own_method srv action, deadline s with
  | Some fn, Some ms => (async_timeout ms (fn activityData)).1
  | Some fn, None => fn activityData
  | None, Some _ =>
      Throws "TypeError"
             "Cannot read property 'Symbol(Symbol.toStringTag)' of undefined"
  | None, None => Throws "TypeError" "actionCall is not a function"
  end.

(** The timer the call leaves armed behind it, with the time at which it
    fires. *)
Definition leftover (srv : Server) (s : Settings) (action : string)
    (activityData : gmap string JsVal) : option nat :=
  match own_method srv action, deadline s with
  | Some fn, Some ms =>
      if (async_timeout ms (fn activityData)).2 then Some ms else None
  | _, _ => None
  end.

(** An exception of lines 68-69 is not caught: it leaves the iteratee
    without [eachDone] having been called.  When the wrapper has left its
    timer armed, the callback of lines 69-78 is still called at the
    deadline, with the timeout error, and calls [eachDone] then; otherwise
    the [eachDone] of the action never comes. *)
Definition thrown (action n m : string) (at_ms : option nat) (x : Exec) : Exec :=
  match at_ms with
  | Some ms =>
      mkExec (updateHook x)
             (add_timer (mkTimer ms action ETIMEDOUT VUndefined false) (timers x))
             (unsettled x) (calls x) (Some (Raise n m))
  | None =>
      mkExec (updateHook x) (timers x) (S (unsettled x)) (calls x)
             (Some (Raise n m))
  end.

(** The iteratee of [async.each] (lines 66-79).  Once an exception has
    left [async.each], the actions that follow are not started: their
    [eachDone] never comes. *)
Definition iteratee (srv : Server) (s : Settings) (data : gmap string JsVal)
    (action : string) (x : Exec) : Exec :=
  match raised x with
  | Some _ =>
      mkExec (updateHook x) (timers x) (S (unsettled x)) (calls x) (raised x)
  | None =>
      match actionCall srv s action data with
      | Throws n m =>
          thrown action n m (leftover srv s action data)
                 (invoked action data x)
      | b => await action b (invoked action data x)
      end
  end.

Definition each (srv : Server) (s : Settings) (data : gmap string JsVal)
    (actions : list string) (x : Exec) : Exec :=
  foldl (λ x action, iteratee srv s data action x) x actions.

Definition actions_of (s : Settings) (name : string) : list string :=
  default [] (activities s !! name).

Definition start (srv : Server) (s : Settings) (activity : Doc) : Exec :=
  each srv s (hookData activity) (actions_of s (hookName activity))
       (mkExec (mkUpdateHook [] None) [] 0 [] None).

(** The exception that leaves [performActions], if one does. *)
Definition escaped (srv : Server) (s : Settings) (activity : Doc)
  : option Raised :=
  raised (start srv s activity).

(** [performActions] (lines 61-82): the handler calls made and how the run
    ends.  [Done]: [done] is called, which an exception that has left the
    iteratee before does not exclude (see [escaped]); [Uncaught]: an
    exception has left the iteratee and [done] is never called. *)
Definition performActions (srv : Server) (s : Settings) (activity : Doc)
  : list Effect * Outcome :=
  let x := start srv s activity in
  let u := fire (timers x) (length (live (timers x)) + unsettled x)
                (updateHook x) in
  (calls x,
   if decide (unsettled x = 0) then Done u
   else match raised x with
        | Some r => Uncaught r
        | None => Stalled u
        end).

(** [logActivity] (lines 54-59). *)
Definition logActivity (s : Settings) (activity : Doc) : list Effect :=
  if log s then [LogDebug "starting-activity" (_id activity)] else [].

(** [completeActivity] (lines 84-97): the error of the update is logged
    and [done] is called without it. *)
Definition completeActivity (now : Z) (err : option JsVal) (activity : Doc)
    (previous : UpdateHook) (c : Collection) : Collection * list Effect :=
  (match err with
   | None =>
       update (_id activity)
              (set_completed (upd_results previous) (final_status previous) now)
              c
   | Some _ => c
   end,
   match err with Some e => [LogError e] | None => [] end).

(** The task table on one activity. *)
Definition runActivity (srv : Server) (s : Settings) (err : option JsVal)
    (now : Z) (activity : Doc) (c : Collection)
  : Collection * list Effect * Outcome :=
  let '(e2, out) := performActions srv s activity in
  match out with
  | Done u =>
      let '(c', e3) := completeActivity now err activity u c in
      (c', logActivity s activity ++ e2 ++ e3, out)
  | _ => (c, logActivity s activity ++ e2, out)
  end.

(** The activities of a batch, one after the other; an exception that
    escapes a task table ends the run: the activities that follow are not
    started. *)
Fixpoint runBatch (srv : Server) (s : Settings) (f : nat → option JsVal)
    (now : Z) (batch : list Doc) (c : Collection)
  : Collection * list Effect * list Outcome * option Raised :=
  match batch with
  | [] => (c, [], [], None)
  | a :: rest =>
      let '(c1, e1, out) := runActivity srv s (f (_id a)) now a c in
      match escaped srv s a with
      | Some r => (c1, e1, [out], Some r)
      | None =>
          let '(c2, e2, outs, r) := runBatch srv s f now rest c1 in
          (c2, e1 ++ e2, out :: outs, r)
      end
  end.

(** [collection.update({ _id: { $in: ids } }, { $set: { status:
    'processing' } }, { multi: true })] *)
Definition mark (ids : list nat) (c : Collection) : Collection :=
  map (λ d, if bool_decide (_id d ∈ ids) then set_status processing d else d) c.

Record Cycle : Type := mkCycle {
  cycle_store : Collection;
  cycle_effects : list Effect;
  cycle_fetched : list Doc;
  cycle_allDone : bool;             (* was [allDone] called? *)
  cycle_raised : option Raised
}.

(** [updateActivities] (lines 26-101).  A failed [find] is logged and the
    code goes on to read [results.length]; a failed marking is ignored. *)
Definition updateActivities (srv : Server) (s : Settings)
    (dbErr markErr : option JsVal) (f : nat → option JsVal) (now : Z)
    (c : Collection) : Cycle :=
  match dbErr with
  | Some e =>
      mkCycle c [LogError e] [] false
        (Some (Raise "TypeError" "Cannot read property 'length' of undefined"))
  | None =>
      match List.filter (λ d, bool_decide (status d = waiting)) c with
      | [] => mkCycle c [] [] true None
      | results =>
          let ids := map _id results in
          let c1 := match markErr with
                    | None => mark ids c
                    | Some _ => c
                    end in
          let '(c2, e, outs, r) := runBatch srv s f now results c1 in
          mkCycle c2 e results
            (bool_decide (length outs = length results) && forallb is_done outs)
            r
      end
  end.

(** The [activity] method (lines 103-117): no look-up in
    [settings.activities]. *)
Definition activity (s : Settings) (insertErr : option JsVal) (now : Z)
    (name : string) (data : gmap string JsVal) (c : Collection)
  : Collection * list Effect :=
  (match insertErr with
   | None => c ++ [mkDoc (fresh_id c) name data waiting None now None None 0]
   | Some _ => c
   end,
   (if log s then [LogNewHook name] else [])
   ++ match insertErr with Some e => [LogError e] | None => [] end).

(** The polling loop (lines 120-125): the calls of [timer] that
    [setTimeout] holds and the cycles whose callback is still to come. *)
Record Poll : Type := mkPoll {
  armed : nat;
  running : nat
}.

Inductive PollEvent : Type :=
| Elapses                         (* a [setTimeout(timer, ...)] elapses *)
| Completes.                      (* [updateActivities] calls its callback *)

Definition timer (p : Poll) : Poll := mkPoll (armed p) (S (running p)).

Definition poll_step (p : Poll) (ev : PollEvent) : option Poll :=
  match ev with
  | Elapses =>
      match armed p with
      | 0 => None
      | S a => Some (timer (mkPoll a (running p)))
      end
  | Completes =>
      match running p with
      | 0 => None
      | S r => Some (mkPoll (S (armed p)) r)
      end
  end.

Definition poll_init : Poll := timer (mkPoll 0 0).

Fixpoint poll_run (p : Poll) (evs : list PollEvent) : option Poll :=
  match evs with
  | [] => Some p
  | ev :: evs' =>
      match poll_step p ev with
      | Some p' => poll_run p' evs'
      | None => None
      end
  end.

End Activities.

(** ** Notions used in the statements *)

(** [status] is ['failed'] exactly when some entry of [results] is an
    error. *)
Definition tracks (u : UpdateHook) : Prop :=
  upd_status u = if existsb is_error (upd_results u) then Some failed else None.

(** The entry a timer pushes when it fires. *)
Definition timer_entry (t : Timer) : Entry :=
  if truthy (t_error t) then EError (t_action t) (t_error t)
  else EOutput (t_action t) (t_output t).

Definition fires_le (t t' : Timer) : Prop := fires t ≤ fires t'.

(** The actions a run has answered for or holds the timer of the first
    answer for. *)
Definition names (x : Exec) : list string :=
  map entry_action (upd_results (updateHook x))
  ++ map t_action (live (timers x)).

(** The timers that fire before [done] is called (see [fire]). *)
Fixpoint fired (q : list Timer) (awaited : nat) : list Timer :=
  match q, awaited with
  | t :: q', S n => t :: fired q' (if t_answered t then S n else n)
  | _, _ => []
  end.

(** Among them, the timers that wrappers have left armed. *)
Definition leftovers (x : Exec) : list Timer :=
  List.filter t_answered
    (fired (timers x) (length (live (timers x)) + unsettled x)).

(** The fields no task of the table writes. *)
Definition frame (d d' : Doc) : Prop :=
  _id d' = _id d ∧ hookName d' = hookName d ∧ hookData d' = hookData d
  ∧ added d' = added d ∧ runAfter d' = runAfter d ∧ attempts d' = attempts d.

(** At most one thing is outstanding: a pending call of [timer] or a cycle
    in flight. *)
Definition one_outstanding (l : Loop) : Prop := pending l + in_flight l ≤ 1.

(** The entry as the iteratee leaves it in the configuration. *)
Definition merged (data : gmap string JsVal) (a : Action) : Action :=
  match a with
  | ActString _ => a
  | ActObject method d => ActObject method (object_assign d data)
  end.

(** The [actionData] computed for an entry. *)
Definition actionData (data : gmap string JsVal) (a : Action)
  : gmap string JsVal :=
  match a with
  | ActString _ => data
  | ActObject _ d => object_assign d data
  end.

(** ** Scenarios *)

Module Scenario.

Definition payload : gmap string JsVal := {["userId" := VNum 42]}.

Definition welcome : list Action := [ActString "sendEmail"; ActString "logAudit"].

Definition settings : Settings :=
  mkSettings (Some 30) 300 false 0 3 {["welcome" := welcome]}.

Definition job : Doc := mkDoc 1 "welcome" payload waiting None 0 None (Some 0%Z) 0.

(** [sendEmail] answers after 20 ms, [logAudit] after 5 ms. *)
Definition server : Server :=
  mkServer
    (<["sendEmail" := λ _, CallsBack 20 VNull (VStr "sent")]>
       {["logAudit" := λ _, CallsBack 5 VNull (VStr "logged")]})
    (λ _ _, Never).

(** [sendEmail] does not answer within the 30 ms of [settings]. *)
Definition slow_server : Server :=
  mkServer
    (<["sendEmail" := λ _, CallsBack 45 VNull (VStr "sent")]>
       {["logAudit" := λ _, CallsBack 5 VNull (VStr "logged")]})
    (λ _ _, Never).

Definition timed_out : UpdateHook :=
  mkUpdateHook [EOutput "logAudit" (VStr "logged");
                EError "sendEmail" ETIMEDOUT] (Some failed).

(** A hook whose first action is a call expression. *)
Definition notify : list Action := [ActString "sms.send(42)"; ActString "logAudit"].

Definition notify_settings : Settings :=
  mkSettings (Some 30) 300 false 0 3 {["notify" := notify]}.

Definition notify_job : Doc :=
  mkDoc 2 "notify" payload waiting None 0 None (Some 0%Z) 0.

(** The call expression answers after 45 ms. *)
Definition late_server : Server :=
  mkServer {["logAudit" := λ _, CallsBack 5 VNull (VStr "logged")]}
           (λ _ _, CallsBack 45 VNull (VStr "sent")).

(** The call expression never answers. *)
Definition hung_server : Server :=
  mkServer {["logAudit" := λ _, CallsBack 5 VNull (VStr "logged")]}
           (λ _ _, Never).

(** A hook whose action carries default parameters, and two jobs for it. *)
Definition sender : gmap string JsVal := {["from" := VStr "noreply"]}.

Definition receipt_settings : Settings :=
  mkSettings (Some 30) 300 false 0 3
    {["receipt" := [ActObject "sendEmail" sender]]}.

Definition first_job : Doc :=
  mkDoc 4 "receipt" {["userId" := VNum 42]} waiting None 0 None (Some 0%Z) 0.

Definition second_job : Doc :=
  mkDoc 5 "receipt" {["orderId" := VNum 7]} waiting None 0 None (Some 0%Z) 0.

(** A hook that has failed and has used up the configured retries. *)
Definition tired : Doc :=
  mkDoc 6 "welcome" payload failed
        (Some [EError "sendEmail" ETIMEDOUT; EOutput "logAudit" (VStr "logged")])
        0 (Some 1%Z) (Some 0%Z) 3.

(** The store refuses a write. *)
Definition write_failed : JsVal := VError "MongoError" "write failed".

End Scenario.

(** ** Notions used in the further properties *)

(** An action that is not a call expression. *)
Definition plain (a : Action) : Prop := is_call_expression (action_name a) = false.


(** The entry a callback called with [error] and [output] pushes. *)
Definition answer_entry (action : string) (error output : JsVal) : Entry :=
  if truthy error then EError action error else EOutput action output.

(** What the iteratee records for a plain action, by what [actionCall]
    does. *)
Definition outcome_entry (action : string) (b : Behaviour) : option Entry :=
  match b with
  | Throws n m => Some (EError action (VStr (n +:+ " " +:+ m +:+ " ")))
  | CallsBack _ er o => Some (answer_entry action er o)
  | Never => None
  end.

(** An action whose handler never calls back: a call expression that
    [str2fn] never answers for, or a plain method left without a deadline. *)
Definition silent (srv : Server) (s : Settings) (data : gmap string JsVal)
    (a : Action) : Prop :=
  if is_call_expression (action_name a)
  then str2fn_execute srv (action_name a) (object_assign ∅ data) = Never
  else actionCall srv s (action_name a) (actionData data a) = Never.

(** What an action comes to, read off its handler: after how many
    milliseconds it is answered for, and the entry that is pushed then.  A
    call expression is answered for by [str2fn] alone, whatever the
    timeout.  A plain method is answered for by its own callback; under a
    timeout of [ms], by the timeout error at [ms] when it has not called
    back before; and at once, by the [catch] clause, when it throws, or
    when it is missing and the timeout is off.  Nothing for a handler that
    never answers, nor for a method missing under a timeout (the exception
    of line 89 is not caught). *)
Definition answers (srv : Server) (s : Settings) (data : gmap string JsVal)
    (a : Action) : option (nat * Entry) :=
  if is_call_expression (action_name a) then
    match str2fn_execute srv (action_name a) (object_assign ∅ data) with
    | CallsBack d er o => Some (d, answer_entry (action_name a) er o)
    | _ => None
    end
  else
    match methods srv !! action_name a, deadline s with
    | None, None =>
        Some (0, EError (action_name a)
                   (VStr "TypeError actionCall is not a function "))
    | None, Some _ => None
    | Some fn, limit =>
        match fn (actionData data a), limit with
        | Throws n m, _ =>
            Some (0, EError (action_name a) (VStr (n +:+ " " +:+ m +:+ " ")))
        | CallsBack d er o, Some ms =>
            if d <? ms then Some (d, answer_entry (action_name a) er o)
            else Some (ms, EError (action_name a) ETIMEDOUT)
        | CallsBack d er o, None =>
            Some (d, answer_entry (action_name a) er o)
        | Never, Some ms => Some (ms, EError (action_name a) ETIMEDOUT)
        | Never, None => None
        end
    end.

(** An action fails when it is answered for with an error: its handler
    throws, calls back with a truthy error, or is timed out. *)
Definition fails (srv : Server) (s : Settings) (data : gmap string JsVal)
    (a : Action) : bool :=
  match answers srv s data a with
  | Some (_, e) => is_error e
  | None => false
  end.

(** Where the entry of an answer is once the action has been started: in
    [results] when the answer came before the iteratee returned, in the
    timer queue otherwise. *)
Definition placed (x : Exec) (after : nat) (e : Entry) : Prop :=
  match after with
  | 0 => In e (upd_results (updateHook x))
  | S _ => ∃ t, In t (timers x) ∧ t_answered t = false
                ∧ fires t = after ∧ timer_entry t = e
  end.

(** The entry is the answer of one of [acts], given after [after]
    milliseconds. *)
Definition answer_of (srv : Server) (s : Settings) (data : gmap string JsVal)
    (acts : list Action) (after : nat) (e : Entry) : Prop :=
  ∃ a, In a acts ∧ answers srv s data a = Some (after, e).

(** The timer is the one the wrapper of a plain method of [acts] has left
    armed: it pushes the timeout error. *)
Definition leftover_of (srv : Server) (s : Settings) (data : gmap string JsVal)
    (acts : list Action) (t : Timer) : Prop :=
  timer_entry t = EError (t_action t) ETIMEDOUT
  ∧ ∃ a, In a acts ∧ plain a ∧ action_name a = t_action t
         ∧ leftover srv s (action_name a) (actionData data a) = Some (fires t).

(** Nothing is pushed or armed that no action accounts for. *)
Definition accounted (srv : Server) (s : Settings) (data : gmap string JsVal)
    (acts : list Action) (x : Exec) : Prop :=
  (∀ e, In e (upd_results (updateHook x)) → ∃ t, answer_of srv s data acts t e)
  ∧ (∀ t, In t (timers x) →
       if t_answered t then leftover_of srv s data acts t
       else answer_of srv s data acts (fires t) (timer_entry t)).

(** No plain method of the list throws while a timeout is set. *)
Definition no_throw_under_timeout (srv : Server) (s : Settings)
    (data : gmap string JsVal) (actions : list Action) : Prop :=
  ∀ a fn n m, In a actions → plain a →
    methods srv !! action_name a = Some fn →
    fn (actionData data a) = Throws n m → deadline s = None.

Definition is_set_timeout (e : Effect) : bool :=
  match e with SetTimeout _ => true | _ => false end.

Definition is_tick (ev : LoopEvent) : bool :=
  match ev with PreStop => false | _ => true end.

(** ** Further scenarios *)

Module Cases.

(** The [welcome] hook with the timeout switched off. *)
Definition unbounded : Settings :=
  mkSettings None 300 false 0 3 {["welcome" := Scenario.welcome]}.

(** A host on which [sendEmail] is not registered. *)
Definition bare_server : Server :=
  mkServer {["logAudit" := λ _, CallsBack 5 VNull (VStr "logged")]}
           (λ _ _, Never).

(** Two waiting hooks and one that is done. *)
Definition done_job : Doc :=
  mkDoc 8 "welcome" Scenario.payload complete (Some []) 0 (Some 1%Z)
        (Some 0%Z) 0.

Definition store : Collection :=
  [Scenario.job; done_job; Scenario.notify_job].

(** A waiting hook that is not to run before time 9. *)
Definition late_job : Doc :=
  mkDoc 3 "welcome" Scenario.payload waiting None 0 None (Some 9%Z) 0.

(** The settings of [Scenario.settings] with a [batchSize] of 1. *)
Definition one_at_a_time : Settings :=
  mkSettings (Some 30) 300 false 1 3 {["welcome" := Scenario.welcome]}.

(** A host on which [sendEmail] throws and [logAudit] never answers. *)
Definition faulty_server : Server :=
  mkServer
    (<["sendEmail" := λ _, Throws "Error" "boom"]>
       {["logAudit" := λ _, Never]})
    (λ _ _, Never).

(** A host on which [logAudit] answers after 5 ms and [sendEmail] throws. *)
Definition throwing_server : Server :=
  mkServer
    (<["sendEmail" := λ _, Throws "Error" "boom"]>
       {["logAudit" := λ _, CallsBack 5 VNull (VStr "logged")]})
    (λ _ _, Never).

(** An activity whose last action is [sendEmail]. *)
Definition audit_first : Activities.Settings :=
  Activities.mkSettings (Some 30) 300 false
    {["welcome" := ["logAudit"; "sendEmail"]]}.

(** The activities revision of the [welcome] table. *)
Definition activity_settings : Activities.Settings :=
  Activities.mkSettings (Some 30) 300 false
    {["welcome" := ["sendEmail"; "logAudit"]]}.

End Cases.

(** * Properties *)

(** ** The iteratee, case by case *)

Lemma iteratee_raised srv s data a x r :
  raised x = Some r → iteratee srv s data a x = (a, x).
Proof. unfold iteratee. by intros ->. Qed.

Lemma iteratee_eq srv s data a x :
  raised x = None →
  iteratee srv s data a x
  = (merged data a,
     if is_call_expression (action_name a) then
       await (action_name a)
             (str2fn_execute srv (action_name a) (object_assign ∅ data))
             (invoked (action_name a) (object_assign ∅ data) x)
     else
       match wrap_throws srv s (action_name a) with
       | Some r => escapes r x
       | None =>
           match actionCall srv s (action_name a) (actionData data a) with
           | Throws n m =>
               mkExec (caught (action_name a) n m (updateHook x))
                      (arm (leftover srv s (action_name a) (actionData data a))
                           (action_name a) (timers x))
                      (unsettled x)
                      (calls x ++ [Invoke (action_name a) (actionData data a)])
                      None
           | b => await (action_name a) b
                        (invoked (action_name a) (actionData data a) x)
           end
       end).
Proof.
  intros Hr. unfold iteratee. rewrite Hr.
  destruct a as [name|method d]; cbn [action_name actionData merged].
  - destruct (is_call_expression name); [done|].
    destruct (wrap_throws srv s name); [done|].
    destruct (actionCall srv s name data); simpl; by rewrite ?Hr.
  - destruct (is_call_expression method); [done|].
    destruct (wrap_throws srv s method); [done|].
    destruct (actionCall srv s method (object_assign d data)); simpl;
      by rewrite ?Hr.
Qed.

(** Splits a goal about [iteratee srv s data a x], for a state [x] without
    a pending exception, into the cases of the iteratee: a call expression;
    an exception of line 89; a method that throws, calls back, never
    answers. *)
Ltac iteratee_cases srv s data a x Hr :=
  rewrite (iteratee_eq srv s data a x Hr); cbn [fst snd];
  destruct (is_call_expression (action_name a)) eqn:?;
  [| destruct (wrap_throws srv s (action_name a)) eqn:?;
     [| destruct (actionCall srv s (action_name a) (actionData data a))
          eqn:? ]].

Lemma each_raised srv s data actions : ∀ x r,
  raised x = Some r → raised (each srv s data actions x).2 = Some r.
Proof.
  induction actions as [|a rest IH]; intros x r Hr; simpl; [done|].
  rewrite (iteratee_raised _ _ _ _ _ _ Hr).
  specialize (IH x r Hr). by destruct (each srv s data rest x).
Qed.

(** An invariant of the iteratee is an invariant of [async.each]. *)
Lemma each_inv (P : Exec → Prop) srv s data :
  (∀ a x, P x → P (iteratee srv s data a x).2) →
  ∀ actions x, P x → P (each srv s data actions x).2.
Proof.
  intros Hstep. induction actions as [|a rest IH]; intros x Hx; simpl; [done|].
  pose proof (Hstep a x Hx) as Hi.
  destruct (iteratee srv s data a x) as [a' x'].
  specialize (IH x' Hi). by destruct (each srv s data rest x').
Qed.

(** The same for a property of the actions started so far, along a run
    from which no exception escapes. *)
Lemma each_inv_ok (P : list Action → Exec → Prop) srv s data :
  (∀ acts a x, raised x = None → raised (iteratee srv s data a x).2 = None →
     P acts x → P (acts ++ [a]) (iteratee srv s data a x).2) →
  ∀ actions acts x,
    raised (each srv s data actions x).2 = None →
    P acts x → P (acts ++ actions) (each srv s data actions x).2.
Proof.
  intros Hstep. induction actions as [|a rest IH]; intros acts x; simpl.
  - intros _ Hx. by rewrite app_nil_r.
  - pose proof (Hstep acts a x) as Hi.
    pose proof (iteratee_raised srv s data a x) as Hs.
    destruct (iteratee srv s data a x) as [a' x'] eqn:He.
    specialize (IH (acts ++ [a]) x').
    pose proof (each_raised srv s data rest x') as Hk.
    destruct (each srv s data rest x') as [rest' x'']. simpl in *.
    intros Hfin Hx.
    destruct (raised x') as [r|] eqn:Hr'.
    { specialize (Hk r eq_refl). congruence. }
    destruct (raised x) as [r|] eqn:Hrx.
    { specialize (Hs r eq_refl). congruence. }
    rewrite <- app_assoc in IH. apply IH; [done|]. by apply Hi.
Qed.

(** ** The executor keeps [status] in step with [results] *)

Lemma settle_tracks action e o u : tracks u → tracks (settle action e o u).
Proof.
  unfold tracks, settle. intros Hu.
  destruct (truthy e); simpl; rewrite existsb_app; simpl.
  - by rewrite orb_true_r.
  - by rewrite !orb_false_r.
Qed.

Lemma caught_tracks action n m u : tracks (caught action n m u).
Proof. unfold tracks, caught. simpl. rewrite existsb_app. simpl. by rewrite orb_true_r. Qed.

Lemma fire_tracks q : ∀ n u, tracks u → tracks (fire q n u).
Proof.
  induction q as [|t q IH]; intros [|n] u Hu; simpl; try done.
  apply IH. by apply settle_tracks.
Qed.

Lemma await_tracks action b x :
  tracks (updateHook x) → tracks (updateHook (await action b x)).
Proof.
  intros Hx. destruct b as [n m|[|d] e o|]; simpl; try done.
  by apply settle_tracks.
Qed.

Lemma iteratee_tracks srv s data a x :
  tracks (updateHook x) → tracks (updateHook (iteratee srv s data a x).2).
Proof.
  intros Hx. destruct (raised x) as [r|] eqn:Hr.
  { by rewrite (iteratee_raised _ _ _ _ _ _ Hr). }
  iteratee_cases srv s data a x Hr; cbn [updateHook escapes];
    first [apply caught_tracks | by apply await_tracks | done].
Qed.

Lemma each_tracks srv s data actions :
  ∀ x, tracks (updateHook x) → tracks (updateHook (each srv s data actions x).2).
Proof.
  apply (each_inv (λ x, tracks (updateHook x))). apply iteratee_tracks.
Qed.

Lemma performActions_tracks srv s h u :
  (performActions srv s h).2 = Done u → tracks u.
Proof.
  unfold performActions, start.
  pose proof (each_tracks srv s (hookData h) (actions_of s (hookName h))
                (mkExec (mkUpdateHook [] None) [] 0 [] None)) as He.
  destruct (each _ _ _ _ _) as [acts x]. simpl in *.
  destruct (raised x); [done|].
  destruct (decide (unsettled x = 0)); [|done].
  intros [= <-]. apply fire_tracks, He. reflexivity.
Qed.

Lemma final_status_tracks u :
  tracks u →
  final_status u = if existsb is_error (upd_results u) then failed else complete.
Proof.
  unfold tracks, final_status. intros ->.
  destruct (existsb is_error (upd_results u)); by case_decide.
Qed.

(** ** The timer queue *)

Lemma settle_results action e o u :
  upd_results (settle action e o u)
  = upd_results u ++ [answer_entry action e o].
Proof. unfold settle, answer_entry. simpl. by destruct (truthy e). Qed.

Lemma timer_entry_action t : entry_action (timer_entry t) = t_action t.
Proof. unfold timer_entry. by destruct (truthy (t_error t)). Qed.

Lemma fire_results q : ∀ n u,
  upd_results (fire q n u) = upd_results u ++ map timer_entry (fired q n).
Proof.
  induction q as [|t q IH]; intros [|n] u; simpl; rewrite ?app_nil_r; try done.
  rewrite IH, settle_results, <- app_assoc. done.
Qed.

Lemma add_timer_perm t q : add_timer t q ≡ₚ t :: q.
Proof.
  induction q as [|t' q IH]; simpl; [done|].
  destruct (fires t <? fires t'); [done|].
  rewrite IH. apply Permutation_swap.
Qed.

Lemma add_timer_In t t' q : In t' (add_timer t q) ↔ t' = t ∨ In t' q.
Proof.
  induction q as [|t0 q IH]; simpl.
  - split; (intros [H|H]; [left; congruence | by right]).
  - destruct (fires t <? fires t0); simpl.
    + split; (intros [H|H]; [left; congruence | by right]).
    + rewrite IH. split; intros H; tauto.
Qed.

Lemma add_timer_sorted t q :
  StronglySorted fires_le q → StronglySorted fires_le (add_timer t q).
Proof.
  induction q as [|t' q IH]; intros Hq; simpl.
  - constructor; constructor.
  - inversion Hq as [|? ? Hq' Hall]; subst.
    destruct (fires t <? fires t') eqn:Hlt.
    + apply Nat.ltb_lt in Hlt. constructor; [done|].
      constructor; [unfold fires_le; lia|].
      eapply Forall_impl; [exact Hall|]. unfold fires_le. intros; simpl in *; lia.
    + apply Nat.ltb_ge in Hlt. constructor; [by apply IH|].
      rewrite add_timer_perm. by constructor.
Qed.

Lemma live_add_timer t q :
  live (add_timer t q) ≡ₚ if t_answered t then live q else t :: live q.
Proof.
  unfold live. induction q as [|t' q IH]; simpl.
  - by destruct (t_answered t).
  - destruct (fires t <? fires t'); simpl.
    + by destruct (t_answered t).
    + destruct (t_answered t'); simpl; [exact IH|].
      rewrite IH. destruct (t_answered t); [done|]. apply Permutation_swap.
Qed.

Lemma live_arm o action q : live (arm o action q) ≡ₚ live q.
Proof. destruct o; simpl; [|done]. by rewrite live_add_timer. Qed.

Lemma arm_In o action q t : In t q → In t (arm o action q).
Proof. destruct o; simpl; [|done]. intros H. apply add_timer_In. by right. Qed.

Lemma arm_sorted o action q :
  StronglySorted fires_le q → StronglySorted fires_le (arm o action q).
Proof. destruct o; simpl; [|done]. apply add_timer_sorted. Qed.

Lemma live_In t q : In t (live q) ↔ In t q ∧ t_answered t = false.
Proof.
  unfold live. rewrite filter_In. destruct (t_answered t); simpl; intuition.
Qed.

(** The timers that are waited for are the first [awaited] timers that
    bring a first answer. *)
Lemma live_fired q : ∀ n, live (fired q n) = take n (live q).
Proof.
  unfold live. induction q as [|t q IH]; intros [|n]; simpl;
    rewrite ?take_nil, ?take_0; try done.
  destruct (t_answered t); simpl; by rewrite IH.
Qed.

Lemma fired_In q : ∀ n t, In t (fired q n) → In t q.
Proof.
  induction q as [|t0 q IH]; intros [|n] t; simpl; try done.
  intros [->|H]; [by left|]. right. by eapply IH.
Qed.

(** Every timer waited for fires before [done] is called. *)
Lemma fired_live q n t :
  length (live q) ≤ n → In t q → t_answered t = false → In t (fired q n).
Proof.
  intros Hn Hin Ha.
  assert (H : In t (live (fired q n))).
  { rewrite live_fired, take_ge by done. by apply live_In. }
  by apply live_In in H as [H _].
Qed.

Lemma fired_sorted q : ∀ n,
  StronglySorted fires_le q → StronglySorted fires_le (fired q n).
Proof.
  induction q as [|t q IH]; intros [|n] Hq; simpl; try constructor.
  - inversion Hq; subst. by apply IH.
  - inversion Hq as [|? ? _ Hall]; subst.
    apply List.Forall_forall. intros t' Ht'.
    apply fired_In in Ht'. by eapply List.Forall_forall in Hall.
Qed.

Lemma fired_split l :
  l ≡ₚ live l ++ List.filter t_answered l.
Proof.
  unfold live. induction l as [|t l IH]; simpl; [done|].
  destruct (t_answered t); simpl.
  - rewrite IH at 1. apply Permutation_middle.
  - by rewrite <- IH.
Qed.

(** In a queue sorted by firing time, a timer that fires earlier stands
    before one that fires later. *)
Lemma sorted_before q : ∀ i j t t',
  StronglySorted fires_le q →
  q !! i = Some t → q !! j = Some t' → fires t < fires t' → i < j.
Proof.
  induction q as [|t0 q IH]; intros i j t t' Hq; [done|].
  inversion Hq as [|? ? Hq' Hall]; subst.
  destruct i as [|i], j as [|j]; simpl.
  - intros [= <-] [= <-]. lia.
  - intros; lia.
  - intros Hi [= <-] Hlt. exfalso.
    apply list_elem_of_lookup_2, list_elem_of_In in Hi.
    eapply List.Forall_forall in Hall; [|exact Hi]. unfold fires_le in Hall. lia.
  - intros Hi Hj Hlt. pose proof (IH i j t t' Hq' Hi Hj Hlt). lia.
Qed.

(** ** Who ends up in [results], and in which order *)

Lemma await_unsettled action b x :
  unsettled x ≤ unsettled (await action b x).
Proof. destruct b as [n m|[|d] e o|]; simpl; lia. Qed.

Lemma iteratee_unsettled srv s data a x :
  unsettled x ≤ unsettled (iteratee srv s data a x).2.
Proof.
  destruct (raised x) as [r|] eqn:Hr.
  { by rewrite (iteratee_raised _ _ _ _ _ _ Hr). }
  iteratee_cases srv s data a x Hr; cbn [unsettled escapes];
    first [done | apply (await_unsettled _ _ (invoked _ _ x))].
Qed.

Lemma each_unsettled srv s data actions : ∀ x,
  unsettled x ≤ unsettled (each srv s data actions x).2.
Proof.
  induction actions as [|a rest IH]; intros x; simpl; [done|].
  pose proof (iteratee_unsettled srv s data a x) as Hi.
  destruct (iteratee srv s data a x) as [a' x'].
  specialize (IH x'). destruct (each srv s data rest x'). simpl in *. lia.
Qed.

Lemma await_names action b x :
  raised (await action b x) = None → unsettled (await action b x) = 0 →
  names (await action b x) ≡ₚ names x ++ [action].
Proof.
  unfold names. destruct b as [n m|[|d] e o|]; simpl; try done.
  - intros _ _. rewrite settle_results, map_app. simpl.
    replace (entry_action (answer_entry action e o)) with action
      by (unfold answer_entry; by destruct (truthy e)).
    rewrite <- !app_assoc. apply Permutation_app_head, Permutation_app_comm.
  - intros _ _. rewrite live_add_timer. simpl.
    rewrite <- app_assoc. apply Permutation_app_head.
    change (action :: map t_action (live (timers x)))
      with ([action] ++ map t_action (live (timers x))).
    apply Permutation_app_comm.
Qed.

Lemma iteratee_names srv s data a x :
  raised x = None →
  raised (iteratee srv s data a x).2 = None →
  unsettled (iteratee srv s data a x).2 = 0 →
  names (iteratee srv s data a x).2 ≡ₚ names x ++ [action_name a].
Proof.
  intros Hr.
  iteratee_cases srv s data a x Hr;
    [apply (await_names _ _ (invoked _ _ x)) | done | |
     apply (await_names _ _ (invoked _ _ x))..].
  intros _ _. unfold names, caught. cbn [updateHook timers upd_results].
  rewrite live_arm, map_app. simpl.
  rewrite <- !app_assoc. apply Permutation_app_head, Permutation_app_comm.
Qed.

Lemma each_names srv s data actions x :
  raised (each srv s data actions x).2 = None →
  unsettled (each srv s data actions x).2 = 0 →
  names (each srv s data actions x).2 ≡ₚ names x ++ map action_name actions.
Proof.
  intros Hr.
  apply (each_inv_ok
           (λ acts y, unsettled y = 0 →
                      names y ≡ₚ names x ++ map action_name acts)
           srv s data) with (acts := []) (actions := actions); [|done|].
  - intros acts a y Hy Hy' IH Hu.
    pose proof (iteratee_unsettled srv s data a y) as Hm.
    rewrite (iteratee_names srv s data a y Hy Hy' Hu), IH by lia.
    by rewrite map_app, <- app_assoc.
  - intros _. by rewrite app_nil_r.
Qed.

Lemma await_sorted action b x :
  StronglySorted fires_le (timers x) →
  StronglySorted fires_le (timers (await action b x)).
Proof.
  intros Hx. destruct b as [n m|[|d] e o|]; simpl; try done.
  by apply add_timer_sorted.
Qed.

Lemma iteratee_sorted srv s data a x :
  StronglySorted fires_le (timers x) →
  StronglySorted fires_le (timers (iteratee srv s data a x).2).
Proof.
  intros Hx. destruct (raised x) as [r|] eqn:Hr.
  { by rewrite (iteratee_raised _ _ _ _ _ _ Hr). }
  iteratee_cases srv s data a x Hr; cbn [timers escapes];
    first [by apply await_sorted | by apply arm_sorted | done].
Qed.

Lemma each_sorted srv s data actions : ∀ x,
  StronglySorted fires_le (timers x) →
  StronglySorted fires_le (timers (each srv s data actions x).2).
Proof.
  apply (each_inv (λ x, StronglySorted fires_le (timers x))).
  apply iteratee_sorted.
Qed.

(** What [Done] tells about the start phase. *)
Lemma performActions_Done srv s h u :
  (performActions srv s h).2 = Done u →
  let x := (start srv s h).2 in
  raised x = None ∧ unsettled x = 0
  ∧ u = fire (timers x) (length (live (timers x))) (updateHook x).
Proof.
  unfold performActions. destruct (start srv s h) as [acts x]. simpl.
  destruct (raised x); [done|].
  destruct (decide (unsettled x = 0)) as [Hu|]; [|done].
  rewrite Hu, Nat.add_0_r. by intros [= <-].
Qed.

Lemma leftovers_Done x :
  unsettled x = 0 →
  leftovers x
  = List.filter t_answered (fired (timers x) (length (live (timers x)))).
Proof. unfold leftovers. intros ->. by rewrite Nat.add_0_r. Qed.

(** The entries of a completed run: one for each action, and those of the
    leftover timers that fired in time. *)
Lemma performActions_names srv s h u :
  (performActions srv s h).2 = Done u →
  map entry_action (upd_results u)
  ≡ₚ map action_name (actions_of s (hookName h))
     ++ map t_action (leftovers (start srv s h).2).
Proof.
  intros HD. destruct (performActions_Done _ _ _ _ HD) as (Hr & Hu & ->).
  rewrite (leftovers_Done _ Hu). unfold start in *.
  pose proof (each_names _ _ _ _ _ Hr Hu) as Hp.
  destruct (each _ _ _ _ _) as [acts x]. cbn [snd] in *.
  rewrite fire_results, map_app, map_map.
  rewrite (map_ext _ t_action timer_entry_action).
  rewrite (fired_split (fired (timers x) (length (live (timers x))))) at 1.
  rewrite live_fired, take_ge by done.
  rewrite map_app, app_assoc. apply Permutation_app_tail. exact Hp.
Qed.

(** *** Every answer is recorded *)

Lemma await_placed action b x t e :
  placed x t e → placed (await action b x) t e.
Proof.
  unfold placed. destruct b as [n m|[|d] er o|]; simpl; try done.
  - destruct t; [|done]. rewrite settle_results. intros H.
    apply in_or_app. by left.
  - destruct t; [done|]. intros (tm & Hin & H). exists tm. split; [|done].
    apply add_timer_In. by right.
Qed.

Lemma iteratee_placed srv s data a x t e :
  placed x t e → placed (iteratee srv s data a x).2 t e.
Proof.
  intros Hp. destruct (raised x) as [r|] eqn:Hr.
  { by rewrite (iteratee_raised _ _ _ _ _ _ Hr). }
  iteratee_cases srv s data a x Hr;
    [by apply await_placed | done | | by apply await_placed..].
  unfold placed in *. destruct t; cbn [updateHook timers caught upd_results].
  - apply in_or_app. by left.
  - destruct Hp as (tm & Hin & H). exists tm. split; [|done]. by apply arm_In.
Qed.

Lemma await_answers action d er o x :
  placed (await action (CallsBack d er o) x) d (answer_entry action er o).
Proof.
  unfold placed. destruct d as [|d]; simpl.
  - rewrite settle_results. apply in_or_app. right. by left.
  - eexists. split; [apply add_timer_In; by left|]. done.
Qed.

(** The answer of a plain action, by what the call of line 92 does. *)
Lemma answers_plain srv s data a :
  is_call_expression (action_name a) = false →
  wrap_throws srv s (action_name a) = None →
  answers srv s data a
  = match actionCall srv s (action_name a) (actionData data a) with
    | Throws n m =>
        Some (0, EError (action_name a) (VStr (n +:+ " " +:+ m +:+ " ")))
    | CallsBack d er o => Some (d, answer_entry (action_name a) er o)
    | Never => None
    end.
Proof.
  unfold answers, wrap_throws, actionCall. intros -> Hw.
  destruct (methods srv !! action_name a) as [fn|],
           (deadline s) as [ms|]; try done.
  destruct (fn (actionData data a)) as [n m|d er o|]; simpl; try done.
  by destruct (d <? ms).
Qed.

Lemma answers_call srv s data a :
  is_call_expression (action_name a) = true →
  answers srv s data a
  = match str2fn_execute srv (action_name a) (object_assign ∅ data) with
    | CallsBack d er o => Some (d, answer_entry (action_name a) er o)
    | _ => None
    end.
Proof. unfold answers. by intros ->. Qed.

Lemma iteratee_answers srv s data a x t e :
  raised x = None →
  raised (iteratee srv s data a x).2 = None →
  answers srv s data a = Some (t, e) →
  placed (iteratee srv s data a x).2 t e.
Proof.
  intros Hr.
  iteratee_cases srv s data a x Hr;
    rewrite ?answers_call, ?answers_plain by done.
  - destruct (str2fn_execute srv _ _) as [n m|d er o|]; try done.
    intros _ [= <- <-]. apply await_answers.
  - done.
  - rewrite Heqb0. intros _ [= <- <-]. unfold placed, caught. simpl.
    apply in_or_app. right. by left.
  - rewrite Heqb0. intros _ [= <- <-]. apply await_answers.
  - by rewrite Heqb0.
Qed.

Lemma each_answers srv s data actions x a t e :
  raised (each srv s data actions x).2 = None →
  In a actions → answers srv s data a = Some (t, e) →
  placed (each srv s data actions x).2 t e.
Proof.
  intros Hr Hin Ha.
  assert (Hstep : ∀ acts a0 y, raised y = None →
            raised (iteratee srv s data a0 y).2 = None →
            (∀ a t e, In a acts → answers srv s data a = Some (t, e) →
                      placed y t e) →
            ∀ a t e, In a (acts ++ [a0]) → answers srv s data a = Some (t, e) →
                     placed (iteratee srv s data a0 y).2 t e).
  { clear. intros acts a0 y Hy Hy' IH a t e Hin Ha.
    apply in_app_iff in Hin as [Hin|[->|[]]].
    - apply iteratee_placed. by eapply IH.
    - by apply iteratee_answers. }
  assert (H0 : ∀ a t e, In a [] → answers srv s data a = Some (t, e) →
                        placed x t e) by (by intros ? ? ? []).
  pose proof (each_inv_ok _ srv s data Hstep actions [] x Hr H0) as H.
  by apply (H a).
Qed.

Lemma fire_placed x n t e :
  length (live (timers x)) ≤ n → placed x t e →
  In e (upd_results (fire (timers x) n (updateHook x))).
Proof.
  intros Hn Hp. rewrite fire_results. apply in_or_app.
  destruct t; simpl in Hp; [by left|]. right.
  destruct Hp as (tm & Hin & Ha & _ & <-).
  apply in_map. by apply fired_live.
Qed.

Lemma performActions_answers srv s h u a t e :
  (performActions srv s h).2 = Done u →
  In a (actions_of s (hookName h)) →
  answers srv s (hookData h) a = Some (t, e) →
  In e (upd_results u).
Proof.
  intros HD Hin Ha.
  destruct (performActions_Done _ _ _ _ HD) as (Hr & _ & ->).
  apply (fire_placed _ _ t); [done|]. unfold start in *.
  by apply (each_answers srv s (hookData h) _ _ a).
Qed.

(** *** The order of the entries *)

Lemma fire_order x n t e t' e' :
  StronglySorted fires_le (timers x) →
  length (live (timers x)) ≤ n →
  placed x t e → placed x t' e' → t < t' →
  ∃ i j, i < j
         ∧ upd_results (fire (timers x) n (updateHook x)) !! i = Some e
         ∧ upd_results (fire (timers x) n (updateHook x)) !! j = Some e'.
Proof.
  intros Hs Hn Hp Hp' Hlt. rewrite fire_results.
  destruct t' as [|d']; [lia|]. simpl in Hp'.
  destruct Hp' as (tm' & Hin' & Ha' & Hf' & <-).
  pose proof (fired_live _ n _ Hn Hin' Ha') as Hfired'.
  apply list_elem_of_In, list_elem_of_lookup_1 in Hfired' as [j' Hj'].
  destruct t as [|d]; simpl in Hp.
  - apply list_elem_of_In, list_elem_of_lookup_1 in Hp as [i Hi].
    exists i, (length (upd_results (updateHook x)) + j').
    pose proof (lookup_lt_Some _ _ _ Hi). split; [lia|]. split.
    + by rewrite lookup_app_l.
    + rewrite lookup_app_r by lia.
      replace (length (upd_results (updateHook x)) + j'
               - length (upd_results (updateHook x))) with j' by lia.
      by rewrite list_lookup_fmap, Hj'.
  - destruct Hp as (tm & Hin & Ha & Hf & <-).
    pose proof (fired_live _ n _ Hn Hin Ha) as Hfired.
    apply list_elem_of_In, list_elem_of_lookup_1 in Hfired as [i' Hi'].
    assert (i' < j').
    { eapply (sorted_before _ i' j' tm tm'); [by apply fired_sorted|done..|lia]. }
    exists (length (upd_results (updateHook x)) + i'),
           (length (upd_results (updateHook x)) + j').
    split; [lia|]. rewrite !lookup_app_r by lia.
    replace (length (upd_results (updateHook x)) + i'
             - length (upd_results (updateHook x))) with i' by lia.
    replace (length (upd_results (updateHook x)) + j'
             - length (upd_results (updateHook x))) with j' by lia.
    by rewrite !list_lookup_fmap, Hi', Hj'.
Qed.

(** *** Leftover timers *)

Lemma leftover_throws srv s action data ms :
  leftover srv s action data = Some ms →
  deadline s = Some ms
  ∧ ∃ fn n m, methods srv !! action = Some fn ∧ fn data = Throws n m
              ∧ actionCall srv s action data = Throws n m.
Proof.
  unfold leftover, actionCall.
  destruct (methods srv !! action) as [fn|]; [|done].
  destruct (deadline s) as [ms'|]; [|done].
  destruct (fn data) as [n m|d e o|] eqn:Hfn; simpl; try done.
  intros [= <-]. split; [done|]. by exists fn, n, m.
Qed.

Lemma leftover_none srv s data actions a :
  no_throw_under_timeout srv s data actions →
  In a actions → plain a →
  leftover srv s (action_name a) (actionData data a) = None.
Proof.
  intros Hno Hin Hp.
  destruct (leftover srv s (action_name a) (actionData data a)) as [ms|] eqn:Hl;
    [|done].
  apply leftover_throws in Hl as (Hd & fn & n & m & Hfn & Ht & _).
  rewrite (Hno a fn n m Hin Hp Hfn Ht) in Hd. done.
Qed.

Lemma await_first_answers action b x :
  Forall (λ t, t_answered t = false) (timers x) →
  Forall (λ t, t_answered t = false) (timers (await action b x)).
Proof.
  intros Hx. destruct b as [n m|[|d] e o|]; simpl; try done.
  rewrite add_timer_perm. by constructor.
Qed.

Lemma each_first_answers srv s data actions : ∀ x,
  no_throw_under_timeout srv s data actions →
  Forall (λ t, t_answered t = false) (timers x) →
  Forall (λ t, t_answered t = false) (timers (each srv s data actions x).2).
Proof.
  induction actions as [|a rest IH]; intros x Hno Hx; simpl; [done|].
  assert (Hi : Forall (λ t, t_answered t = false)
                 (timers (iteratee srv s data a x).2)).
  { destruct (raised x) as [r|] eqn:Hr.
    { by rewrite (iteratee_raised _ _ _ _ _ _ Hr). }
    iteratee_cases srv s data a x Hr; cbn [timers escapes];
      [by apply await_first_answers | done | | by apply await_first_answers..].
    rewrite (leftover_none srv s data (a :: rest) a Hno); [done|by left|done]. }
  destruct (iteratee srv s data a x) as [a' x'].
  assert (Hno' : no_throw_under_timeout srv s data rest).
  { intros b fn n m Hb. apply Hno. by right. }
  specialize (IH x' Hno' Hi). by destruct (each srv s data rest x').
Qed.

Lemma performActions_no_leftovers srv s h :
  no_throw_under_timeout srv s (hookData h) (actions_of s (hookName h)) →
  leftovers (start srv s h).2 = [].
Proof.
  intros Hno. unfold leftovers, start.
  pose proof (each_first_answers srv s (hookData h) _
                (mkExec (mkUpdateHook [] None) [] 0 [] None) Hno
                ltac:(constructor)) as Hall.
  destruct (each _ _ _ _ _) as [acts x]. cbn [snd] in *.
  remember (length (live (timers x)) + unsettled x) as n eqn:Hn. clear Hn.
  assert (H : ∀ t, In t (fired (timers x) n) → t_answered t = false).
  { intros t Ht. apply fired_In in Ht.
    by eapply List.Forall_forall in Hall. }
  induction (fired (timers x) n) as [|t l IH]; simpl; [done|].
  rewrite (H t) by (by left). apply IH. intros t' Ht'. apply H. by right.
Qed.

Lemma performActions_length srv s h u :
  (performActions srv s h).2 = Done u →
  no_throw_under_timeout srv s (hookData h) (actions_of s (hookName h)) →
  length (upd_results u) = length (actions_of s (hookName h)).
Proof.
  intros HD Hno. pose proof (performActions_names srv s h u HD) as Hp.
  rewrite (performActions_no_leftovers srv s h Hno), app_nil_r in Hp.
  apply Permutation_length in Hp. by rewrite !length_map in Hp.
Qed.

(** *** Nothing is pushed that no action accounts for *)

Lemma answer_of_mono srv s data acts a t e :
  answer_of srv s data acts t e → answer_of srv s data (acts ++ [a]) t e.
Proof.
  intros (b & Hin & Hb). exists b. split; [|done]. apply in_or_app. by left.
Qed.

Lemma answer_of_last srv s data acts a t e :
  answers srv s data a = Some (t, e) → answer_of srv s data (acts ++ [a]) t e.
Proof.
  intros Ha. exists a. split; [|done]. apply in_or_app. right. by left.
Qed.

Lemma accounted_mono srv s data acts a x :
  accounted srv s data acts x → accounted srv s data (acts ++ [a]) x.
Proof.
  intros [Hres Htm]. split.
  - intros e He. destruct (Hres e He) as [t Ht]. exists t.
    by apply answer_of_mono.
  - intros t Ht. specialize (Htm t Ht). destruct (t_answered t).
    + destruct Htm as (He & b & Hin & Hb). split; [done|].
      exists b. split; [|done]. apply in_or_app. by left.
    + by apply answer_of_mono.
Qed.

Lemma await_accounted srv s data acts a x b :
  (∀ d er o, b = CallsBack d er o →
     answers srv s data a = Some (d, answer_entry (action_name a) er o)) →
  accounted srv s data acts x →
  accounted srv s data (acts ++ [a]) (await (action_name a) b x).
Proof.
  intros Hb Hx. apply (accounted_mono _ _ _ _ a) in Hx as [Hres Htm].
  destruct b as [n m|[|d] er o|]; simpl; try (by split).
  - split; [|done]. cbn [updateHook]. intros e. rewrite settle_results.
    intros He. apply in_app_iff in He as [He|[<-|[]]]; [by apply Hres|].
    exists 0. apply answer_of_last. by apply Hb.
  - split; [done|]. cbn [timers]. intros t Ht.
    apply add_timer_In in Ht as [->|Ht]; [|by apply Htm].
    simpl. apply answer_of_last. by apply (Hb (S d)).
Qed.

Lemma iteratee_accounted srv s data acts a x :
  raised x = None →
  accounted srv s data acts x →
  accounted srv s data (acts ++ [a]) (iteratee srv s data a x).2.
Proof.
  intros Hr Hx.
  iteratee_cases srv s data a x Hr.
  - apply (await_accounted _ _ _ _ _ (invoked _ _ x)); [|done].
    intros d er o Hb. rewrite answers_call by done. by rewrite Hb.
  - by apply accounted_mono.
  - apply (accounted_mono _ _ _ _ a) in Hx as [Hres Htm]. split.
    + cbn [updateHook caught upd_results]. intros e He.
      apply in_app_iff in He as [He|[<-|[]]]; [by apply Hres|].
      exists 0. apply answer_of_last.
      rewrite answers_plain by done. by rewrite Heqb0.
    + cbn [timers]. intros t Ht.
      destruct (leftover srv s (action_name a) (actionData data a)) as [ms|]
        eqn:Hl; simpl in Ht; [|by apply Htm].
      apply add_timer_In in Ht as [->|Ht]; [|by apply Htm].
      simpl. split; [done|]. exists a.
      split; [apply in_or_app; right; by left|]. by repeat split.
  - apply (await_accounted _ _ _ _ _ (invoked _ _ x)); [|done].
    intros d er o [= <- <- <-]. rewrite answers_plain by done.
    by rewrite Heqb0.
  - apply (await_accounted _ _ _ _ _ (invoked _ _ x)); [|done]. done.
Qed.

Lemma each_accounted srv s data actions x :
  raised (each srv s data actions x).2 = None →
  accounted srv s data [] x →
  accounted srv s data actions (each srv s data actions x).2.
Proof.
  intros Hr.
  apply (each_inv_ok (accounted srv s data) srv s data); [|done].
  intros acts a y Hy _. by apply iteratee_accounted.
Qed.

Lemma start_accounted srv s h :
  raised (start srv s h).2 = None →
  accounted srv s (hookData h) (actions_of s (hookName h)) (start srv s h).2.
Proof.
  intros Hr. unfold start in *. apply each_accounted; [done|].
  split; simpl; by intros ? [].
Qed.

(** An entry of a completed run is the answer of an action, or the timeout
    entry of a leftover timer. *)
Lemma performActions_accounted srv s h u e :
  (performActions srv s h).2 = Done u →
  In e (upd_results u) →
  (∃ t, answer_of srv s (hookData h) (actions_of s (hookName h)) t e)
  ∨ (∃ t, In t (leftovers (start srv s h).2)
          ∧ timer_entry t = e
          ∧ leftover_of srv s (hookData h) (actions_of s (hookName h)) t).
Proof.
  intros HD He. destruct (performActions_Done _ _ _ _ HD) as (Hr & Hu & ->).
  destruct (start_accounted srv s h Hr) as [Hres Htm].
  rewrite (leftovers_Done _ Hu).
  rewrite fire_results in He. apply in_app_iff in He as [He|He].
  - left. by apply Hres.
  - apply in_map_iff in He as (t & <- & Ht).
    pose proof (Htm t (fired_In _ _ _ Ht)) as Hacc.
    destruct (t_answered t) eqn:Ha.
    + right. exists t. split; [|done]. apply filter_In. by split.
    + left. by exists (fires t).
Qed.

(** C1 (as stated, refuted): with [sendEmail] declared before [logAudit]
    but answering after it, the run completes with the entry of
    [logAudit] first: [results] is in completion order, not in declaration
    order. *)
Lemma results_follow_completion_order :
  map action_name (actions_of Scenario.settings "welcome")
  = ["sendEmail"; "logAudit"]
  ∧ (performActions Scenario.server Scenario.settings Scenario.job).2
    = Done (mkUpdateHook [EOutput "logAudit" (VStr "logged");
                          EOutput "sendEmail" (VStr "sent")] None).
Proof. split; vm_compute; reflexivity. Qed.

(** C1 (amended): when [performActions] completes for a hook whose name
    has N configured actions and none of its plain methods has thrown
    under a timeout, [results] has exactly N entries, one for each
    configured action; and in every completed run the entry of each action
    is in [results], in the order in which the handlers answer: the entry
    of an action answered for earlier (by its handler, by the timeout or
    by the [catch] clause) stands before the entry of one answered for
    later, whatever the declaration order.  The entries besides those of
    the actions, if any, are timeout entries pushed by the timers that
    the wrappers of throwing methods have left armed. *)
Theorem performActions_results srv s h u :
  (performActions srv s h).2 = Done u →
  (no_throw_under_timeout srv s (hookData h) (actions_of s (hookName h)) →
   length (upd_results u) = length (actions_of s (hookName h))
   ∧ map entry_action (upd_results u)
     ≡ₚ map action_name (actions_of s (hookName h)))
  ∧ (∀ a t e, In a (actions_of s (hookName h)) →
       answers srv s (hookData h) a = Some (t, e) → In e (upd_results u))
  ∧ (∀ a b ta tb ea eb,
       In a (actions_of s (hookName h)) → In b (actions_of s (hookName h)) →
       answers srv s (hookData h) a = Some (ta, ea) →
       answers srv s (hookData h) b = Some (tb, eb) →
       ta < tb →
       ∃ i j, i < j ∧ upd_results u !! i = Some ea
              ∧ upd_results u !! j = Some eb)
  ∧ map entry_action (upd_results u)
    ≡ₚ map action_name (actions_of s (hookName h))
       ++ map t_action (leftovers (start srv s h).2)
  ∧ (∀ t, In t (leftovers (start srv s h).2) →
       leftover_of srv s (hookData h) (actions_of s (hookName h)) t).
Proof.
  intros HD. split; [|split; [|split; [|split]]].
  - intros Hno. split; [by apply (performActions_length srv)|].
    pose proof (performActions_names srv s h u HD) as Hp.
    by rewrite (performActions_no_leftovers srv s h Hno), app_nil_r in Hp.
  - intros a t e. by apply (performActions_answers srv s h u a t e).
  - intros a b ta tb ea eb Ha Hb Hta Htb Hlt.
    destruct (performActions_Done _ _ _ _ HD) as (Hr & _ & ->).
    unfold start in *.
    apply (fire_order _ _ ta ea tb eb); try done.
    + apply each_sorted. constructor.
    + by apply (each_answers srv s (hookData h) _ _ a).
    + by apply (each_answers srv s (hookData h) _ _ b).
  - by apply performActions_names.
  - intros t Ht.
    destruct (performActions_Done _ _ _ _ HD) as (Hr & Hu & _).
    destruct (start_accounted srv s h Hr) as [_ Htm].
    rewrite (leftovers_Done _ Hu) in Ht. apply filter_In in Ht as [Ht Ha].
    specialize (Htm t (fired_In _ _ _ Ht)). by rewrite Ha in Htm.
Qed.

Lemma performActions_results_witness :
  let u := mkUpdateHook [EOutput "logAudit" (VStr "logged");
                         EOutput "sendEmail" (VStr "sent")] None in
  (performActions Scenario.server Scenario.settings Scenario.job).2 = Done u
  ∧ ∃ i j, i < j
           ∧ upd_results u !! i = Some (EOutput "logAudit" (VStr "logged"))
           ∧ upd_results u !! j = Some (EOutput "sendEmail" (VStr "sent")).
Proof.
  intros u.
  assert (H : (performActions Scenario.server Scenario.settings
                 Scenario.job).2 = Done u) by (vm_compute; reflexivity).
  split; [exact H|].
  pose proof (performActions_results Scenario.server Scenario.settings
                Scenario.job u H) as (_ & _ & Hord & _).
  apply (Hord (ActString "logAudit") (ActString "sendEmail") 5 20).
  - vm_compute. right. left. reflexivity.
  - vm_compute. left. reflexivity.
  - vm_compute. reflexivity.
  - vm_compute. reflexivity.
  - lia.
Defined.

(** With a timeout of 30 ms, [sendEmail] throwing and [logAudit] silent,
    the run completes with three entries for two actions: the [catch]
    clause answers for [sendEmail], the timer its wrapper has left armed
    pushes the timeout error for it at 30 ms, and then the timeout of
    [logAudit] completes the run. *)
Lemma leftover_timer_pushes_an_entry :
  map action_name (actions_of Scenario.settings "welcome")
  = ["sendEmail"; "logAudit"]
  ∧ (performActions Cases.faulty_server Scenario.settings Scenario.job).2
    = Done (mkUpdateHook [EError "sendEmail" (VStr "Error boom ");
                          EError "sendEmail" ETIMEDOUT;
                          EError "logAudit" ETIMEDOUT] (Some failed)).
Proof. split; vm_compute; reflexivity. Qed.

(** With a timeout set and [sendEmail] missing from [server.methods], the
    exception of line 89 leaves the iteratee: [logAudit] is not started
    and [done] is not called. *)
Lemma missing_method_escapes_under_timeout :
  methods Cases.bare_server !! "sendEmail" = None
  ∧ (performActions Cases.bare_server Scenario.settings Scenario.job).1.2 = []
  ∧ ∃ r, (performActions Cases.bare_server Scenario.settings Scenario.job).2
         = Uncaught r.
Proof. repeat split; [vm_compute; reflexivity..|]. eexists. vm_compute. reflexivity. Qed.

(** ** The store under the task table *)

Lemma frame_refl d : frame d d.
Proof. by repeat split. Qed.

Lemma frame_trans d1 d2 d3 : frame d1 d2 → frame d2 d3 → frame d1 d3.
Proof. unfold frame. intros H1 H2. destruct_and!. repeat split; congruence. Qed.

Lemma set_status_frame st d : frame d (set_status st d).
Proof. by repeat split. Qed.

Lemma set_completed_frame r st now d : frame d (set_completed r st now d).
Proof. by repeat split. Qed.

Lemma findOne_id id c d : findOne id c = Some d → _id d = id.
Proof.
  unfold findOne. intros H. apply find_some in H as [_ H].
  by apply bool_decide_eq_true in H.
Qed.

Lemma findOne_In id c d : findOne id c = Some d → In d c.
Proof. unfold findOne. intros H. by apply find_some in H as [H _]. Qed.

(** Reading a document back after an update by [_id]. *)
Lemma findOne_update id id' set c :
  (∀ d, _id (set d) = _id d) →
  findOne id (update id' set c)
  = (if decide (id = id') then set else λ d, d) <$> findOne id c.
Proof.
  intros Hset. unfold findOne.
  induction c as [|d c IH]; simpl; [done|].
  destruct (decide (_id d = id')) as [He|Hne]; simpl.
  - rewrite Hset. destruct (bool_decide_reflect (_id d = id)) as [Hi|Hi]; simpl.
    + destruct (decide (id = id')); [done | congruence].
    + clear IH. destruct (decide (id = id')) as [->|Hd]; [done|].
      by destruct (List.find _ c).
  - destruct (bool_decide_reflect (_id d = id)) as [Hi|Hi]; simpl; [|done].
    destruct (decide (id = id')); [congruence | done].
Qed.

Lemma findOne_update_frame id id' set c d' :
  (∀ d, frame d (set d)) →
  findOne id (update id' set c) = Some d' →
  ∃ d, findOne id c = Some d ∧ frame d d'.
Proof.
  intros Hset. rewrite findOne_update; [|intros d; apply Hset].
  destruct (findOne id c) as [d|]; simpl; [|done].
  intros [= <-]. exists d. split; [done|].
  destruct (decide (id = id')); [apply Hset | apply frame_refl].
Qed.

Lemma logHook_frame s err h c id d' :
  findOne id (logHook s err h c).1 = Some d' →
  ∃ d, findOne id c = Some d ∧ frame d d'.
Proof.
  unfold logHook. simpl. destruct err.
  - intros H. exists d'. split; [done | apply frame_refl].
  - apply findOne_update_frame. intros d. apply set_status_frame.
Qed.

Lemma completeHook_frame now err h u c id d' :
  findOne id (completeHook now err h u c).1 = Some d' →
  ∃ d, findOne id c = Some d ∧ frame d d'.
Proof.
  unfold completeHook. destruct err; simpl.
  - intros H. exists d'. split; [done | apply frame_refl].
  - apply findOne_update_frame. intros d. apply set_completed_frame.
Qed.

Lemma executeHook_outcome srv s f now h c :
  run_outcome (executeHook srv s f now h c) = (performActions srv s h).2.
Proof.
  unfold executeHook. destruct (logHook _ _ _ _) as [c1 e1].
  destruct (performActions srv s h) as [[s' e2] [u|u|r]]; simpl; [|done..].
  by destruct (completeHook _ _ _ _ _).
Qed.

Lemma executeHook_store srv s f now h c :
  run_store (executeHook srv s f now h c)
  = match (performActions srv s h).2 with
    | Done u =>
        (completeHook now (completeHook_err f) h u
           (logHook s (logHook_err f) h c).1).1
    | _ => (logHook s (logHook_err f) h c).1
    end.
Proof.
  unfold executeHook. destruct (logHook _ _ _ _) as [c1 e1].
  destruct (performActions srv s h) as [[s' e2] [u|u|r]]; simpl; [|done..].
  by destruct (completeHook _ _ _ _ _).
Qed.

Lemma executeHook_frame srv s f now h c id d' :
  findOne id (run_store (executeHook srv s f now h c)) = Some d' →
  ∃ d, findOne id c = Some d ∧ frame d d'.
Proof.
  rewrite executeHook_store.
  destruct ((performActions srv s h).2) as [u|u|r];
    [|apply logHook_frame..].
  intros H. apply completeHook_frame in H as (d1 & H1 & F1).
  apply logHook_frame in H1 as (d & H0 & F0).
  exists d. split; [done | by eapply frame_trans].
Qed.

(** An error entry is pushed exactly for the actions that fail. *)
Lemma performActions_fails srv s h u :
  (performActions srv s h).2 = Done u →
  existsb is_error (upd_results u)
  = existsb (fails srv s (hookData h)) (actions_of s (hookName h)).
Proof.
  intros HD. apply eq_true_iff_eq. rewrite !existsb_exists. split.
  - intros (e & He & Herr).
    destruct (performActions_accounted srv s h u e HD He)
      as [(t & a & Hin & Ha)|(t & _ & _ & _ & a & Hin & Hp & _ & Hl)].
    + exists a. split; [done|]. unfold fails. by rewrite Ha.
    + exists a. split; [done|].
      apply leftover_throws in Hl as (Hd & fn & n & m & Hfn & Hthrow & _).
      unfold fails, answers. unfold plain in Hp.
      by rewrite Hp, Hfn, Hd, Hthrow.
  - intros (a & Hin & Hf). unfold fails in Hf.
    destruct (answers srv s (hookData h) a) as [[t e]|] eqn:Ha; [|done].
    exists e. split; [|done]. by eapply performActions_answers.
Qed.

(** C4: when the actions of a hook have all answered and [completeHook]
    writes the outcome, the document holds the [results] of the run, and
    its status is [failed] if at least one action failed (its handler threw,
    called back with an error, or was timed out) and [complete] if none
    did; [failed] goes with an error entry in [results], [complete] with
    none. *)
Theorem terminal_status srv s f now h c u d :
  run_outcome (executeHook srv s f now h c) = Done u →
  completeHook_err f = None →
  findOne (_id h) (run_store (executeHook srv s f now h c)) = Some d →
  results d = Some (upd_results u)
  ∧ completedOn d = Some now
  ∧ status d = (if existsb (fails srv s (hookData h)) (actions_of s (hookName h))
                then failed else complete)
  ∧ status d = (if existsb is_error (upd_results u) then failed else complete)
  ∧ (∀ a, In a (actions_of s (hookName h)) →
       fails srv s (hookData h) a = true → status d = failed).
Proof.
  rewrite executeHook_outcome, executeHook_store. intros Hu Hf. rewrite Hu.
  unfold completeHook. rewrite Hf. simpl.
  rewrite findOne_update by done. rewrite decide_True by done.
  destruct (findOne (_id h) _) as [d0|]; simpl; [|done].
  intros [= <-]. simpl.
  assert (Hst : final_status u
                = if existsb is_error (upd_results u) then failed else complete).
  { apply final_status_tracks. by eapply performActions_tracks. }
  pose proof (performActions_fails srv s h u Hu) as Hfails.
  repeat split; try done.
  - by rewrite <- Hfails.
  - intros a Hin Ha. rewrite Hst, Hfails.
    replace (existsb _ _) with true; [done|].
    symmetry. apply existsb_exists. eauto.
Qed.

Lemma terminal_status_witness :
  let r := executeHook Scenario.slow_server Scenario.settings no_faults 7
             Scenario.job [Scenario.job] in
  let d := set_completed (upd_results Scenario.timed_out) failed 7
             Scenario.job in
  run_outcome r = Done Scenario.timed_out
  ∧ findOne 1 (run_store r) = Some d
  ∧ fails Scenario.slow_server Scenario.settings (hookData Scenario.job)
      (ActString "sendEmail") = true
  ∧ status d = failed.
Proof.
  intros r d.
  assert (H1 : run_outcome r = Done Scenario.timed_out)
    by (vm_compute; reflexivity).
  assert (H2 : findOne (_id Scenario.job) (run_store r) = Some d)
    by (vm_compute; reflexivity).
  assert (H3 : fails Scenario.slow_server Scenario.settings
                 (hookData Scenario.job) (ActString "sendEmail") = true)
    by (vm_compute; reflexivity).
  split; [exact H1|]. split; [exact H2|]. split; [exact H3|].
  refine (proj2 (proj2 (proj2 (proj2
            (terminal_status Scenario.slow_server Scenario.settings
               no_faults 7 Scenario.job [Scenario.job]
               Scenario.timed_out d H1 eq_refl H2))))
            (ActString "sendEmail") _ H3).
  vm_compute. left. reflexivity.
Defined.

(** ** Deadlines *)

Lemma actionCall_deadline srv s ms action data :
  deadline s = Some ms →
  actionCall srv s action data ≠ Never
  ∧ ∀ d e o, actionCall srv s action data = CallsBack d e o → d ≤ ms.
Proof.
  unfold actionCall. intros ->.
  destruct (methods srv !! action) as [fn|]; simpl; [|done].
  destruct (fn data) as [n m|d e o|]; simpl; [done| |].
  - destruct (d <? ms) eqn:Hlt; split; try done.
    + intros ? ? ? [= <- _ _]. apply Nat.ltb_lt in Hlt. lia.
    + by intros ? ? ? [= <- _ _].
  - split; [done|]. by intros ? ? ? [= <- _ _].
Qed.

(** A method that has not answered when the deadline is reached is
    answered for with the timeout error. *)
Lemma actionCall_times_out srv s ms action data fn :
  deadline s = Some ms →
  methods srv !! action = Some fn →
  (fn data = Never ∨ ∃ d e o, fn data = CallsBack d e o ∧ ms ≤ d) →
  actionCall srv s action data = CallsBack ms ETIMEDOUT VUndefined
  ∧ answer_entry action ETIMEDOUT VUndefined = EError action ETIMEDOUT.
Proof.
  unfold actionCall. intros -> -> Hfn. split; [|done].
  destruct Hfn as [->|(d & e & o & -> & Hd)]; simpl; [done|].
  apply Nat.ltb_ge in Hd. by rewrite Hd.
Qed.

Lemma await_settles action b x :
  b ≠ Never → (∀ n m, b ≠ Throws n m) →
  raised (await action b x) = raised x
  ∧ unsettled (await action b x) = unsettled x.
Proof.
  intros Hn Ht. destruct b as [n m|[|d] e o|]; simpl; try done.
  by destruct (Ht n m).
Qed.

Lemma wrap_throws_registered srv s action :
  is_Some (methods srv !! action) → wrap_throws srv s action = None.
Proof.
  unfold wrap_throws. intros [fn ->]. by destruct (deadline s).
Qed.

Lemma iteratee_settles srv s ms data a x :
  deadline s = Some ms →
  plain a → is_Some (methods srv !! action_name a) →
  raised x = None → unsettled x = 0 →
  raised (iteratee srv s data a x).2 = None
  ∧ unsettled (iteratee srv s data a x).2 = 0.
Proof.
  intros Hd Hc Hm Hr Hu.
  destruct (actionCall_deadline srv s ms (action_name a) (actionData data a) Hd)
    as [Hn _].
  iteratee_cases srv s data a x Hr.
  - unfold plain in Hc. congruence.
  - rewrite wrap_throws_registered in * by done. done.
  - done.
  - destruct (await_settles (action_name a) (CallsBack delay error output)
                (invoked (action_name a) (actionData data a) x)) as [-> ->];
      done.
  - done.
Qed.

Lemma each_settles srv s ms data actions : ∀ x,
  deadline s = Some ms →
  Forall (λ a, plain a ∧ is_Some (methods srv !! action_name a)) actions →
  raised x = None → unsettled x = 0 →
  raised (each srv s data actions x).2 = None
  ∧ unsettled (each srv s data actions x).2 = 0.
Proof.
  induction actions as [|a rest IH]; intros x Hd Hall Hr Hu; simpl; [done|].
  inversion Hall as [|? ? [Ha Hm] Hrest]; subst.
  destruct (iteratee_settles srv s ms data a x Hd Ha Hm Hr Hu) as [Hr' Hu'].
  destruct (iteratee srv s data a x) as [a' x']. simpl in *.
  specialize (IH x' Hd Hrest Hr' Hu').
  by destruct (each srv s data rest x') as [rest' x''].
Qed.

(** With a deadline in force, a hook whose actions are all plain names of
    registered methods always completes: its executor calls [done]. *)
Lemma plain_actions_complete srv s ms h :
  deadline s = Some ms →
  Forall (λ a, plain a ∧ is_Some (methods srv !! action_name a))
         (actions_of s (hookName h)) →
  ∃ u, (performActions srv s h).2 = Done u.
Proof.
  intros Hd Hall. unfold performActions, start.
  destruct (each_settles srv s ms (hookData h) (actions_of s (hookName h))
              (mkExec (mkUpdateHook [] None) [] 0 [] None) Hd Hall eq_refl eq_refl)
    as [Hr Hu].
  destruct (each _ _ _ _ _) as [acts x]. simpl in *.
  rewrite Hr, Hu. simpl. eauto.
Qed.

(** C5 (the code at the failing input): with a timeout of 30 ms in force, a
    call expression that answers after 45 ms is recorded with its output,
    not with a timeout error; and one that never answers leaves the run
    stalled, so the entry of its sibling [logAudit] is never handed on. *)
Theorem call_expression_has_no_deadline :
  deadline Scenario.notify_settings = Some 30
  ∧ (performActions Scenario.late_server Scenario.notify_settings
       Scenario.notify_job).2
    = Done (mkUpdateHook [EOutput "logAudit" (VStr "logged");
                          EOutput "sms.send(42)" (VStr "sent")] None)
  ∧ (performActions Scenario.hung_server Scenario.notify_settings
       Scenario.notify_job).2
    = Stalled (mkUpdateHook [EOutput "logAudit" (VStr "logged")] None).
Proof. repeat split; vm_compute; reflexivity. Qed.

(** ** A failed write in [logHook] *)

(** C6 (as stated, refuted): the update of [logHook] fails, and the
    actions of the hook are invoked all the same; [completeHook] then
    writes [results] and [completedOn] into the document. *)
Lemma logHook_failure_runs_actions :
  let r := executeHook Scenario.server Scenario.settings
             (mkFaults (Some Scenario.write_failed) None) 7
             Scenario.job [Scenario.job] in
  run_effects r
  = [LogError Scenario.write_failed;
     Invoke "sendEmail" Scenario.payload; Invoke "logAudit" Scenario.payload]
  ∧ results Scenario.job = None
  ∧ results <$> findOne 1 (run_store r)
    = Some (Some [EOutput "logAudit" (VStr "logged");
                  EOutput "sendEmail" (VStr "sent")])
  ∧ completedOn <$> findOne 1 (run_store r) = Some (Some 7%Z).
Proof.
  repeat split; vm_compute; reflexivity.
Qed.

Lemma executeHook_effects srv s f now h c :
  ∃ rest,
    run_effects (executeHook srv s f now h c)
    = (logHook s (logHook_err f) h c).2 ++ (performActions srv s h).1.2 ++ rest.
Proof.
  unfold executeHook. destruct (logHook _ _ _ _) as [c1 e1].
  destruct (performActions srv s h) as [[s' e2] [u|u|r]]; simpl.
  - destruct (completeHook _ _ _ _ _) as [c2 err]. simpl. eauto.
  - exists []. by rewrite app_nil_r.
  - exists []. by rewrite app_nil_r.
Qed.

(** C6 (amended): when the update of [logHook] fails, the failure is
    logged, the document is not marked [processing], and the cycle goes on
    for that hook: its actions are invoked as they would have been, and
    once they have all answered [completeHook] writes [results], the
    terminal status and [completedOn]; the other fields of the document
    are unchanged. *)
Theorem logHook_failure_is_logged srv s f now h c e :
  logHook_err f = Some e →
  (logHook s (logHook_err f) h c).1 = c
  ∧ In (LogError e) (run_effects (executeHook srv s f now h c))
  ∧ run_outcome (executeHook srv s f now h c) = (performActions srv s h).2
  ∧ (∀ ev, In ev (performActions srv s h).1.2 →
           In ev (run_effects (executeHook srv s f now h c)))
  ∧ (∀ u, (performActions srv s h).2 = Done u → completeHook_err f = None →
          run_store (executeHook srv s f now h c)
          = update (_id h)
              (set_completed (upd_results u) (final_status u) now) c)
  ∧ (∀ d', findOne (_id h) (run_store (executeHook srv s f now h c)) = Some d' →
           ∃ d, findOne (_id h) c = Some d ∧ frame d d').
Proof.
  intros He.
  destruct (executeHook_effects srv s f now h c) as [rest Heff].
  split; [by rewrite He|]. split.
  { rewrite Heff. apply in_or_app. left. unfold logHook. rewrite He. simpl.
    by left. }
  split; [apply executeHook_outcome|]. split.
  { intros ev Hev. rewrite Heff. apply in_or_app. right.
    apply in_or_app. by left. }
  split.
  - intros u Hu Hc. rewrite executeHook_store, Hu.
    unfold completeHook, logHook. by rewrite Hc, He.
  - intros d'. apply executeHook_frame.
Qed.

Lemma logHook_failure_is_logged_witness :
  let f := mkFaults (Some Scenario.write_failed) None in
  logHook_err f = Some Scenario.write_failed
  ∧ In (LogError Scenario.write_failed)
       (run_effects (executeHook Scenario.server Scenario.settings f 7
                       Scenario.job [Scenario.job])).
Proof.
  intros f. split; [reflexivity|].
  exact (proj1 (proj2 (logHook_failure_is_logged Scenario.server
                         Scenario.settings f 7 Scenario.job [Scenario.job]
                         Scenario.write_failed eq_refl))).
Defined.

(** ** Enqueueing *)

Lemma hook_exists_configured s name :
  is_Some (hooks s !! name) → hook_exists s name = true.
Proof. unfold hook_exists. intros H. by rewrite bool_decide_eq_true_2. Qed.

Lemma hook_exists_unknown s name :
  hooks s !! name = None → name ∉ Object_prototype → hook_exists s name = false.
Proof.
  unfold hook_exists. intros Hn Hp.
  rewrite !bool_decide_eq_false_2; [done..|]. rewrite Hn. by intros [? ?].
Qed.

(** What [hook] does, by what line 140 finds under the name. *)
Lemma hook_found s insertErr now name data c :
  hook_exists s name = true →
  hook s insertErr now name data c
  = (match insertErr with
     | None => c ++ [mkDoc (fresh_id c) name data waiting None now None None 0]
     | Some _ => c
     end,
     match insertErr with Some e => [LogError e] | None => [] end
     ++ (if log s then [LogNewHook name] else [])).
Proof. unfold hook. by intros ->. Qed.

(** C8 (the code at the failing input): [toString] is not a key of the
    configured table, and [hook('toString', data)] inserts a [waiting]
    document all the same: the test of line 140 finds the function every
    object inherits under that name.  For a name that is neither configured
    nor inherited the call changes nothing and logs nothing; for a
    configured name it inserts a [waiting] document with that name and
    payload, and a refused insert is logged, not raised. *)
Theorem hook_enqueues_inherited_name :
  hooks Scenario.settings !! "toString" = None
  ∧ hook Scenario.settings None 7 "toString" Scenario.payload [Scenario.job]
    = ([Scenario.job;
        mkDoc 2 "toString" Scenario.payload waiting None 7 None None 0], [])
  ∧ (∀ s insertErr now name data c,
       hooks s !! name = None → name ∉ Object_prototype →
       hook s insertErr now name data c = (c, []))
  ∧ (∀ s now name data c,
       is_Some (hooks s !! name) →
       (hook s None now name data c).1
       = c ++ [mkDoc (fresh_id c) name data waiting None now None None 0]
       ∧ ∀ e, hook s (Some e) now name data c
              = (c, LogError e :: if log s then [LogNewHook name] else [])).
Proof.
  split; [vm_compute; reflexivity|]. split; [vm_compute; reflexivity|]. split.
  - intros s insertErr now name data c Hn Hp. unfold hook.
    by rewrite hook_exists_unknown.
  - intros s now name data c Hn. split.
    + by rewrite hook_found by by apply hook_exists_configured.
    + intros e. by rewrite hook_found by by apply hook_exists_configured.
Qed.

(** ** The polling loop *)

Lemma loop_init_one : one_outstanding loop_init.
Proof. unfold one_outstanding, loop_init, timer. simpl. lia. Qed.

Lemma loop_step_one s l ev l' e :
  one_outstanding l → loop_step s l ev = Some (l', e) → one_outstanding l'.
Proof.
  unfold one_outstanding, loop_step. intros Hl.
  destruct ev as [|err|].
  - destruct (pending l) as [|p] eqn:Hp; [done|].
    intros [= <- _]. unfold timer. simpl.
    destruct (continueProcessing l); simpl; lia.
  - destruct (in_flight l) as [|n] eqn:Hn; [done|].
    unfold cycle_callback. simpl.
    destruct (continueProcessing l); intros [= <- _]; simpl; lia.
  - intros [= <- _]. simpl. lia.
Qed.

Lemma loop_run_one s evs : ∀ l l',
  one_outstanding l → loop_run s l evs = Some l' → one_outstanding l'.
Proof.
  induction evs as [|ev evs IH]; intros l l' Hl; simpl.
  - by intros [= <-].
  - destruct (loop_step s l ev) as [[l1 e]|] eqn:Hs; [|done].
    apply IH. by eapply loop_step_one.
Qed.





(** ** Fetching the batch *)

Section Ticks.

Import ProcessHooks.

Lemma limit_In n l d : In d (limit n l) → In d l.
Proof.
  destruct n as [|n]; simpl; [done|].
  rewrite <- !list_elem_of_In. apply (subseteq_take (S n) l).
Qed.

Lemma limit_length n l : n ≠ 0 → length (limit n l) ≤ n.
Proof.
  destruct n as [|n]; [done|]. intros _. simpl.
  rewrite length_take. lia.
Qed.

Lemma due_spec now d :
  due now d = true ↔
  (status d = waiting ∨ status d = failed)
  ∧ ∃ t, runAfter d = Some t ∧ (t ≤ now)%Z.
Proof.
  unfold due. rewrite andb_true_iff, bool_decide_eq_true.
  destruct (runAfter d) as [t|]; split.
  - intros [Hs Ht]. split; [done|]. exists t. split; [done|]. lia.
  - intros [Hs (t' & [= <-] & Ht)]. split; [done|]. lia.
  - by intros [_ ?].
  - by intros [_ (t' & ? & _)].
Qed.

Lemma find_due_spec s now c :
  (∀ d, In d (find_due s now c) →
        In d c ∧ (status d = waiting ∨ status d = failed)
        ∧ ∃ t, runAfter d = Some t ∧ (t ≤ now)%Z)
  ∧ (batchSize s ≠ 0 → length (find_due s now c) ≤ batchSize s)
  ∧ (batchSize s = 0 → find_due s now c = List.filter (due now) c).
Proof.
  unfold find_due. split; [|split].
  - intros d Hd. apply limit_In, filter_In in Hd as [Hc Hd].
    split; [done|]. by apply due_spec.
  - apply limit_length.
  - by intros ->.
Qed.

Lemma processHooks_fetched srv s f outstanding findErr now c :
  tick_fetched (processHooks srv s f outstanding findErr now c) = []
  ∨ tick_fetched (processHooks srv s f outstanding findErr now c)
    = find_due s now c.
Proof.
  unfold processHooks, logHooks, hooks.
  destruct (bool_decide (cnt_processing outstanding = 0)); simpl.
  - destruct findErr; simpl; [by left|].
    destruct (execute _ _ _ _ _ _ _) as [[[s' c'] e2] outs]. by right.
  - by left.
Qed.

Lemma queryHooks_fetched srv s f dbErr now c :
  Batching.queryHooks srv s f dbErr now c
  = mkTick s c [] [] (Some (option_map (λ e, e) dbErr))
  ∨ tick_fetched (Batching.queryHooks srv s f dbErr now c) = find_due s now c.
Proof.
  unfold Batching.queryHooks. destruct dbErr; simpl; [by left|].
  destruct (find_due s now c) as [|h batch] eqn:Hb; [by left|].
  destruct (execute _ _ _ _ _ _ _) as [[[s' c'] e2] outs]. by right.
Qed.

Lemma timer_fetched srv s f countErr current dbErr now continue stopped c :
  tick_fetched
    (Batching.timer srv s f countErr current dbErr now continue stopped c) = []
  ∨ tick_fetched
      (Batching.timer srv s f countErr current dbErr now continue stopped c)
    = find_due s now c.
Proof.
  unfold Batching.timer. destruct continue; simpl; [|by left].
  destruct (bool_decide _); simpl; [|by left].
  destruct (queryHooks_fetched srv s f dbErr now c) as [Hq|Hq]; rewrite Hq;
    [by left | by right].
Qed.

(** The earlier revision fetches every hook with status [waiting], and
    nothing else. *)
Lemma updateHooks_fetches_waiting srv s f now c :
  tick_fetched (updateHooks srv s f None now c)
  = List.filter (λ d, bool_decide (status d = waiting)) c.
Proof.
  unfold updateHooks.
  destruct (List.filter _ c) as [|h batch] eqn:Hb; [done|].
  by destruct (execute _ _ _ _ _ _ _) as [[[s' c'] e2] outs].
Qed.

(** C2 (as stated, refuted): a cycle of [updateHooks] at time 7 fetches a
    waiting hook whose [runAfter] is 9; and with a [batchSize] of 1 it
    fetches two hooks. *)
Lemma updateHooks_fetches_future_hook :
  status Cases.late_job = waiting
  ∧ runAfter Cases.late_job = Some 9%Z
  ∧ tick_fetched (updateHooks Scenario.server Scenario.settings
                    (λ _, no_faults) None 7 [Cases.late_job])
    = [Cases.late_job]
  ∧ batchSize Cases.one_at_a_time = 1
  ∧ tick_fetched (updateHooks Scenario.server Cases.one_at_a_time
                    (λ _, no_faults) None 7 Cases.store)
    = [Scenario.job; Scenario.notify_job].
Proof. repeat split; vm_compute; reflexivity. Qed.

(** C2 (amended): the hooks a tick of the later revision fetches for
    execution, through the [hooks] step of the tick pipeline or through
    [queryHooks] under [timer], are documents of the collection with status
    [waiting] or [failed] whose [runAfter] is not after the time of the
    query; with a [batchSize] other than [0] there are at most [batchSize]
    of them, and with a [batchSize] of [0] the query is not capped.  A
    cycle of [updateHooks] in [src/index.js] that can read the collection
    fetches the documents with status [waiting], all of them, whatever
    [runAfter] and [batchSize] are. *)
Theorem fetched_hooks_by_revision srv s f countErr counts findErr now continue
    stopped c :
  (∀ batch,
     batch = tick_fetched (processHooks srv s f counts findErr now c)
     ∨ batch = tick_fetched
                 (Batching.timer srv s f countErr counts findErr now continue
                    stopped c) →
     (∀ d, In d batch →
           In d c ∧ (status d = waiting ∨ status d = failed)
           ∧ ∃ t, runAfter d = Some t ∧ (t ≤ now)%Z)
     ∧ (batchSize s ≠ 0 → length batch ≤ batchSize s))
  ∧ (batchSize s = 0 → find_due s now c = List.filter (due now) c)
  ∧ tick_fetched (updateHooks srv s f None now c)
    = List.filter (λ d, bool_decide (status d = waiting)) c
  ∧ (∀ d, In d (tick_fetched (updateHooks srv s f findErr now c)) →
          In d c ∧ status d = waiting).
Proof.
  destruct (find_due_spec s now c) as (Hdue & Hlen & Hall).
  split; [|split; [exact Hall|split]].
  - intros batch Hb.
    assert (Hcase : batch = [] ∨ batch = find_due s now c).
    { destruct Hb as [->| ->];
        [apply processHooks_fetched | apply timer_fetched]. }
    destruct Hcase as [->| ->].
    + split; [by intros d []|]. simpl; lia.
    + split; [exact Hdue | exact Hlen].
  - apply updateHooks_fetches_waiting.
  - intros d. destruct findErr as [e|]; [done|].
    rewrite updateHooks_fetches_waiting. intros Hd.
    apply filter_In in Hd as [Hc Hd].
    split; [done|]. by apply bool_decide_eq_true in Hd.
Qed.

(** ** Back-pressure *)

Lemma execute_nil srv s f now announce c :
  execute srv s f now announce [] c = (s, c, [], []).
Proof. reflexivity. Qed.

(** C3: when the count of hooks with status [processing] observed as the
    tick starts is not zero, the [hooks] step reads nothing and answers
    with the empty batch, no hook is started, and store and configuration
    are as they were; under [timer] the tick does nothing but log and set
    the timeout for the next tick. *)
Theorem backpressure srv s f countErr counts findErr now stopped c :
  cnt_processing counts ≠ 0 →
  (hooks s now findErr (logHooks s counts).1 c = inr []
   ∧ processHooks srv s f counts findErr now c
     = mkTick s c
         ([Emit "hook:query"]
          ++ (if log s then [LogStatus (cnt_processing counts);
                             LogWarning (cnt_processing counts)]
              else []))
         [] (Some None))
  ∧ Batching.timer srv s f countErr counts findErr now true stopped c
    = mkTick s c
        (match countErr with Some e => [LogError e] | None => [] end
         ++ (if log s then [LogStatus (cnt_processing counts)] else [])
         ++ [SetTimeout (interval s)])
        [] None.
Proof.
  intros Hn. split; [split|].
  - unfold hooks, logHooks. simpl. by rewrite bool_decide_eq_false_2.
  - unfold processHooks, hooks, logHooks. simpl.
    rewrite bool_decide_eq_false_2 by done. simpl.
    destruct (log s); simpl; reflexivity.
  - unfold Batching.timer. simpl.
    rewrite bool_decide_eq_false_2 by done. simpl.
    by rewrite <- app_assoc.
Qed.

Lemma backpressure_witness :
  let busy := set_status processing Scenario.job in
  let store := [busy; Scenario.notify_job] in
  cnt_processing (hookStatus store) ≠ 0
  ∧ tick_fetched (processHooks Scenario.server Scenario.settings
                    (λ _, no_faults) (hookStatus store) None 7 store) = [].
Proof.
  intros busy store.
  assert (H : cnt_processing (hookStatus store) ≠ 0)
    by (vm_compute; discriminate).
  split; [exact H|].
  pose proof (backpressure Scenario.server Scenario.settings (λ _, no_faults)
                None (hookStatus store) None 7 false store H) as [[_ Hp] _].
  by rewrite Hp.
Defined.

Lemma updateHooks_fetched srv s f dbErr now c d :
  In d (tick_fetched (updateHooks srv s f dbErr now c)) →
  In d c ∧ status d = waiting.
Proof.
  destruct dbErr as [e|]; [done|].
  rewrite updateHooks_fetches_waiting. intros Hd.
  apply filter_In in Hd as [Hc Hd].
  split; [done|]. by apply bool_decide_eq_true in Hd.
Qed.

End Ticks.

(** ** Default parameters of an action entry *)

Lemma iteratee_entry srv s data a x :
  raised x = None → (iteratee srv s data a x).1 = merged data a.
Proof. intros Hr. by rewrite iteratee_eq. Qed.

Lemma await_calls action b x : calls (await action b x) = calls x.
Proof. by destruct b as [n m|[|d] e o|]. Qed.

Lemma iteratee_calls srv s data a x ev :
  In ev (calls x) → In ev (calls (iteratee srv s data a x).2).
Proof.
  intros Hev. destruct (raised x) as [r|] eqn:Hr.
  { by rewrite (iteratee_raised _ _ _ _ _ _ Hr). }
  iteratee_cases srv s data a x Hr; cbn [calls escapes];
    rewrite ?await_calls; cbn [calls invoked];
    first [done | apply in_or_app; by left].
Qed.

Lemma iteratee_invokes srv s data a x :
  raised x = None → raised (iteratee srv s data a x).2 = None →
  is_call_expression (action_name a) = false →
  In (Invoke (action_name a) (actionData data a))
     (calls (iteratee srv s data a x).2).
Proof.
  intros Hr.
  iteratee_cases srv s data a x Hr; [done|done|..]; intros _ _;
    rewrite ?await_calls; cbn [calls invoked];
    apply in_or_app; right; by left.
Qed.

Lemma each_entries srv s data actions : ∀ x,
  raised (each srv s data actions x).2 = None →
  (each srv s data actions x).1 = merged data <$> actions.
Proof.
  induction actions as [|a rest IH]; intros x; simpl; [done|].
  pose proof (iteratee_entry srv s data a x) as Ha.
  pose proof (iteratee_raised srv s data a x) as Hs.
  destruct (iteratee srv s data a x) as [a' x'] eqn:Hi.
  specialize (IH x'). pose proof (each_raised srv s data rest x') as Hk.
  destruct (each srv s data rest x') as [rest' x'']. simpl in *.
  intros Hr. destruct (raised x') as [r|] eqn:Hr'.
  { specialize (Hk r eq_refl). congruence. }
  destruct (raised x) as [r|] eqn:Hrx.
  { specialize (Hs r eq_refl). congruence. }
  by rewrite Ha, IH.
Qed.

Lemma each_calls srv s data actions : ∀ x ev,
  In ev (calls x) → In ev (calls (each srv s data actions x).2).
Proof.
  induction actions as [|a rest IH]; intros x ev Hev; simpl; [done|].
  pose proof (iteratee_calls srv s data a x ev Hev) as Hi.
  destruct (iteratee srv s data a x) as [a' x'].
  specialize (IH x' ev Hi). by destruct (each srv s data rest x').
Qed.

Lemma each_invokes srv s data actions : ∀ x a,
  raised (each srv s data actions x).2 = None →
  In a actions → is_call_expression (action_name a) = false →
  In (Invoke (action_name a) (actionData data a))
     (calls (each srv s data actions x).2).
Proof.
  induction actions as [|a0 rest IH]; intros x a; simpl; [intros _ []|].
  pose proof (iteratee_invokes srv s data a0 x) as Hv.
  pose proof (iteratee_raised srv s data a0 x) as Hs.
  destruct (iteratee srv s data a0 x) as [a' x'] eqn:Hi.
  pose proof (each_calls srv s data rest x') as Hc.
  pose proof (each_raised srv s data rest x') as Hk.
  specialize (IH x' a).
  destruct (each srv s data rest x') as [rest' x'']. simpl in *.
  intros Hr Hin Hplain.
  destruct (raised x') as [r|] eqn:Hr'.
  { specialize (Hk r eq_refl). congruence. }
  destruct Hin as [->|Hin]; [|by apply IH].
  apply Hc, Hv; [|done..].
  destruct (raised x) as [r|] eqn:Hrx; [|done].
  specialize (Hs r eq_refl). congruence.
Qed.

Lemma performActions_raised srv s h :
  (∀ r, (performActions srv s h).2 ≠ Uncaught r) →
  raised (start srv s h).2 = None.
Proof.
  unfold performActions. destruct (start srv s h) as [acts x]. simpl.
  destruct (raised x) as [r|]; [|done]. intros H. by destruct (H r).
Qed.

(** The configuration a run leaves behind. *)
Lemma performActions_hooks srv s h acts :
  hooks s !! hookName h = Some acts →
  (∀ r, (performActions srv s h).2 ≠ Uncaught r) →
  hooks (performActions srv s h).1.1
  = <[hookName h := merged (hookData h) <$> acts]> (hooks s).
Proof.
  intros Hacts Hok. pose proof (performActions_raised srv s h Hok) as Hr.
  unfold performActions, start, actions_of in *. rewrite Hacts in *. simpl in *.
  pose proof (each_entries srv s (hookData h) acts
                (mkExec (mkUpdateHook [] None) [] 0 [] None) Hr) as He.
  destruct (each _ _ _ _ _) as [acts' x]. simpl in *. by rewrite He.
Qed.

Lemma performActions_invokes srv s h a :
  (∀ r, (performActions srv s h).2 ≠ Uncaught r) →
  In a (actions_of s (hookName h)) →
  is_call_expression (action_name a) = false →
  In (Invoke (action_name a) (actionData (hookData h) a))
     (performActions srv s h).1.2.
Proof.
  intros Hok Hin Hplain.
  pose proof (performActions_raised srv s h Hok) as Hr.
  unfold performActions, start in *.
  pose proof (each_invokes srv s (hookData h) (actions_of s (hookName h))
                (mkExec (mkUpdateHook [] None) [] 0 [] None) a Hr Hin Hplain)
    as Hv.
  by destruct (each _ _ _ _ _) as [acts' x].
Qed.

Lemma actions_of_after srv s h acts :
  hooks s !! hookName h = Some acts →
  (∀ r, (performActions srv s h).2 ≠ Uncaught r) →
  actions_of (performActions srv s h).1.1 (hookName h)
  = merged (hookData h) <$> acts.
Proof.
  intros Hacts Hok. unfold actions_of.
  rewrite (performActions_hooks _ _ _ _ Hacts Hok).
  by rewrite lookup_insert_eq.
Qed.

(** C9: running a hook whose action list holds an object entry with
    default [data] writes the payload of the job into that entry of the
    configuration; a later job of the same hook finds the entry so
    changed, merges its own payload into it in turn, and a plain method is
    invoked with the result: a field of the first payload that the second
    payload does not have reaches the second job's handler with the first
    job's value. *)
Theorem default_data_is_shared srv s h1 h2 acts i method d :
  hooks s !! hookName h1 = Some acts →
  acts !! i = Some (ActObject method d) →
  hookName h2 = hookName h1 →
  (∀ r, (performActions srv s h1).2 ≠ Uncaught r) →
  (∀ r, (performActions srv (performActions srv s h1).1.1 h2).2 ≠ Uncaught r) →
  actions_of (performActions srv s h1).1.1 (hookName h1) !! i
  = Some (ActObject method (object_assign d (hookData h1)))
  ∧ actions_of (performActions srv (performActions srv s h1).1.1 h2).1.1
      (hookName h1) !! i
    = Some (ActObject method
              (object_assign (object_assign d (hookData h1)) (hookData h2)))
  ∧ (is_call_expression method = false →
     In (Invoke method
           (object_assign (object_assign d (hookData h1)) (hookData h2)))
        (performActions srv (performActions srv s h1).1.1 h2).1.2)
  ∧ (∀ k v, hookData h1 !! k = Some v → hookData h2 !! k = None →
            object_assign (object_assign d (hookData h1)) (hookData h2) !! k
            = Some v).
Proof.
  intros Hacts Hi Hname Hok1 Hok2.
  pose proof (actions_of_after srv s h1 acts Hacts Hok1) as H1.
  assert (Hacts1 : hooks (performActions srv s h1).1.1 !! hookName h2
                   = Some (merged (hookData h1) <$> acts)).
  { rewrite Hname, (performActions_hooks _ _ _ _ Hacts Hok1).
    by rewrite lookup_insert_eq. }
  pose proof (actions_of_after srv _ h2 _ Hacts1 Hok2) as H2.
  rewrite Hname in H2.
  assert (Hi1 : (merged (hookData h1) <$> acts) !! i
                = Some (ActObject method (object_assign d (hookData h1)))).
  { by rewrite list_lookup_fmap, Hi. }
  split; [by rewrite H1|]. split.
  { rewrite H2, list_lookup_fmap, Hi1. done. }
  split.
  - intros Hplain.
    apply (performActions_invokes srv _ h2
             (ActObject method (object_assign d (hookData h1))) Hok2);
      [|done].
    rewrite Hname, H1. rewrite <- list_elem_of_In.
    by eapply list_elem_of_lookup_2.
  - intros k v Hk1 Hk2. unfold object_assign.
    rewrite lookup_union_r by done. by rewrite lookup_union_l' by eauto.
Qed.

Lemma default_data_is_shared_witness :
  let s1 := (performActions Scenario.server Scenario.receipt_settings
               Scenario.first_job).1.1 in
  let seen := object_assign
                (object_assign Scenario.sender (hookData Scenario.first_job))
                (hookData Scenario.second_job) in
  hookData Scenario.second_job !! "userId" = None
  ∧ seen !! "userId" = Some (VNum 42)
  ∧ In (Invoke "sendEmail" seen)
       (performActions Scenario.server s1 Scenario.second_job).1.2.
Proof.
  intros s1 seen.
  pose proof (default_data_is_shared Scenario.server Scenario.receipt_settings
                Scenario.first_job Scenario.second_job
                [ActObject "sendEmail" Scenario.sender] 0
                "sendEmail" Scenario.sender
                ltac:(vm_compute; reflexivity) eq_refl eq_refl
                ltac:(intros r; vm_compute; discriminate)
                ltac:(intros r; vm_compute; discriminate))
    as (_ & _ & Hin & Hkey).
  split; [vm_compute; reflexivity|]. split.
  - apply Hkey; vm_compute; reflexivity.
  - apply Hin. vm_compute; reflexivity.
Defined.

(** ** Retrying *)

Lemma findOne_update_same id set c h :
  (∀ d, _id (set d) = _id d) →
  findOne id c = Some h → findOne id (update id set c) = Some (set h).
Proof.
  intros Hset Hh. rewrite findOne_update by done.
  rewrite decide_True by done. by rewrite Hh.
Qed.

(** C7 (as stated, refuted): for an id that no document has, the caller of
    [retryHook] is not called back with an error; and for a failed hook
    whose [attempts] have reached [maxRetries], the caller is not called
    back with an error either. *)
Lemma retry_knows_no_ceiling :
  findOne 99 [Scenario.tired] = None
  ∧ (Retry.retryHook [Scenario.tired] 99).2 = None
  ∧ findOne 6 [Scenario.tired] = Some Scenario.tired
  ∧ attempts Scenario.tired = maxRetries Scenario.settings
  ∧ (Retry.retryHook [Scenario.tired] 6).2 = None.
Proof. repeat split; vm_compute; reflexivity. Qed.

(** C7 (amended): whatever the id, whether or not a document has it, and
    whatever the [attempts] of the hook and the configured [maxRetries], a
    call of [retry] hands no error to its caller, neither [NotFound] nor
    [RetryExhausted], and the [attempts] of the stored hooks are as they
    were.  [retryHook] passes on to its caller the error [retry] calls back
    with, or else the [performActions] part of the response. *)
Theorem retry_delivers_no_error c hookId :
  (∀ e, (Retry.retryHook c hookId).2 ≠ Some (Retry.ReplyError e))
  ∧ (∀ id d, findOne id c = Some d →
       ∃ d', findOne id (Retry.retry_store (Retry.retry c hookId)) = Some d'
             ∧ attempts d' = attempts d)
  ∧ (∀ err response,
       (truthy err = true →
        Retry.retryHook_callback err response = Retry.ReplyError err)
       ∧ (truthy err = false →
          Retry.retryHook_callback err response = Retry.ReplyResult response)).
Proof.
  split; [|split].
  - by intros e.
  - intros id d Hd. by exists d.
  - intros err response. unfold Retry.retryHook_callback.
    split; by intros ->.
Qed.

(** * Further properties *)

(** ** Every action is started once *)





(** ** What is recorded for an action *)

Lemma outcome_entry_answers srv s data a e :
  plain a → wrap_throws srv s (action_name a) = None →
  outcome_entry (action_name a)
    (actionCall srv s (action_name a) (actionData data a)) = Some e →
  ∃ t, answers srv s data a = Some (t, e).
Proof.
  intros Hp Hw. rewrite answers_plain by done.
  destruct (actionCall srv s (action_name a) (actionData data a))
    as [n m|d er o|]; simpl; [| |done]; intros [= <-]; eauto.
Qed.

Lemma wrap_throws_off srv s action :
  deadline s = None → wrap_throws srv s action = None.
Proof. unfold wrap_throws. by intros ->. Qed.

Lemma performActions_records srv s h u a e :
  (performActions srv s h).2 = Done u →
  In a (actions_of s (hookName h)) → plain a →
  wrap_throws srv s (action_name a) = None →
  outcome_entry (action_name a)
    (actionCall srv s (action_name a) (actionData (hookData h) a)) = Some e →
  In e (upd_results u).
Proof.
  intros HD Hin Hp Hw He.
  destruct (outcome_entry_answers srv s (hookData h) a e Hp Hw He) as [t Ha].
  by eapply performActions_answers.
Qed.

Lemma error_entry_fails u e :
  tracks u → In e (upd_results u) → is_error e = true → final_status u = failed.
Proof.
  intros Hu Hin He. rewrite final_status_tracks by done.
  assert (Hex : existsb is_error (upd_results u) = true).
  { apply existsb_exists. eauto. }
  by rewrite Hex.
Qed.

(** X2: under a timeout of [ms], a plain method that has not answered
    after [ms] milliseconds (it answers later, or never) is recorded in
    [results] as [{ action, error }] with the timeout error, and the hook
    ends [failed]. *)
Theorem timed_out_action_is_recorded srv s h u ms a fn :
  (performActions srv s h).2 = Done u →
  deadline s = Some ms →
  In a (actions_of s (hookName h)) → plain a →
  methods srv !! action_name a = Some fn →
  (fn (actionData (hookData h) a) = Never
   ∨ ∃ d e o, fn (actionData (hookData h) a) = CallsBack d e o ∧ ms ≤ d) →
  In (EError (action_name a) ETIMEDOUT) (upd_results u)
  ∧ final_status u = failed.
Proof.
  intros HD Hd Hin Hp Hfn Hslow.
  destruct (actionCall_times_out srv s ms (action_name a)
              (actionData (hookData h) a) fn Hd Hfn Hslow) as [Hcall _].
  assert (He : In (EError (action_name a) ETIMEDOUT) (upd_results u)).
  { apply (performActions_records srv s h u a); try done.
    - by apply wrap_throws_registered.
    - by rewrite Hcall. }
  split; [done|].
  eapply error_entry_fails; [by eapply performActions_tracks | exact He | done].
Qed.

Lemma timed_out_action_is_recorded_witness :
  (performActions Scenario.slow_server Scenario.settings Scenario.job).2
  = Done Scenario.timed_out
  ∧ In (EError "sendEmail" ETIMEDOUT) (upd_results Scenario.timed_out).
Proof.
  assert (H : (performActions Scenario.slow_server Scenario.settings
                 Scenario.job).2 = Done Scenario.timed_out)
    by (vm_compute; reflexivity).
  split; [exact H|].
  refine (proj1 (timed_out_action_is_recorded Scenario.slow_server
                   Scenario.settings Scenario.job Scenario.timed_out 30
                   (ActString "sendEmail")
                   (λ _, CallsBack 45 VNull (VStr "sent"))
                   H eq_refl _ eq_refl _ _)).
  - vm_compute. left. reflexivity.
  - vm_compute. reflexivity.
  - right. exists 45, VNull, (VStr "sent"). split; [reflexivity | lia].
Defined.

(** X3: a plain method that calls back in time (before the deadline, or
    at any time when no timeout is set) is recorded by what it calls back
    with: [{ action, error }] when the error is truthy, and
    [{ action, output }] otherwise, so that an error of [null], [0] or the
    empty string counts as a success. *)
Theorem answer_is_recorded srv s h u a fn d er o :
  (performActions srv s h).2 = Done u →
  In a (actions_of s (hookName h)) → plain a →
  methods srv !! action_name a = Some fn →
  fn (actionData (hookData h) a) = CallsBack d er o →
  (∀ ms, deadline s = Some ms → d < ms) →
  (truthy er = true → In (EError (action_name a) er) (upd_results u))
  ∧ (truthy er = false → In (EOutput (action_name a) o) (upd_results u)).
Proof.
  intros HD Hin Hp Hfn Hans Hfast.
  assert (Hcall : actionCall srv s (action_name a) (actionData (hookData h) a)
                  = CallsBack d er o).
  { unfold actionCall. rewrite Hfn, Hans.
    destruct (deadline s) as [ms|]; [|done]. simpl.
    specialize (Hfast ms eq_refl). apply Nat.ltb_lt in Hfast.
    by rewrite Hfast. }
  assert (He : In (answer_entry (action_name a) er o) (upd_results u)).
  { apply (performActions_records srv s h u a); try done.
    - by apply wrap_throws_registered.
    - by rewrite Hcall. }
  unfold answer_entry in He. split; intros Ht; by rewrite Ht in He.
Qed.

Lemma answer_is_recorded_witness :
  (performActions Scenario.server Scenario.settings Scenario.job).2
  = Done (mkUpdateHook [EOutput "logAudit" (VStr "logged");
                        EOutput "sendEmail" (VStr "sent")] None)
  ∧ In (EOutput "logAudit" (VStr "logged"))
       [EOutput "logAudit" (VStr "logged"); EOutput "sendEmail" (VStr "sent")].
Proof.
  assert (H : (performActions Scenario.server Scenario.settings
                 Scenario.job).2
              = Done (mkUpdateHook [EOutput "logAudit" (VStr "logged");
                                    EOutput "sendEmail" (VStr "sent")] None))
    by (vm_compute; reflexivity).
  split; [exact H|].
  apply (proj2 (answer_is_recorded Scenario.server Scenario.settings
                  Scenario.job _ (ActString "logAudit")
                  (λ _, CallsBack 5 VNull (VStr "logged")) 5 VNull
                  (VStr "logged") H
                  ltac:(vm_compute; right; left; reflexivity) eq_refl
                  ltac:(vm_compute; reflexivity) eq_refl
                  ltac:(intros ms [= <-]; lia))).
  reflexivity.
Defined.

(** X4: with the timeout switched off, a plain action whose method is
    missing from [server.methods], or throws when called, is recorded as
    [{ action, error }] with the text made of the name and the message of
    the exception, and the hook ends [failed]; the exception goes no
    further. *)
Theorem thrown_error_is_recorded srv s h u a n m :
  (performActions srv s h).2 = Done u →
  deadline s = None →
  In a (actions_of s (hookName h)) → plain a →
  match methods srv !! action_name a with
  | Some fn => fn (actionData (hookData h) a) = Throws n m
  | None => n = "TypeError" ∧ m = "actionCall is not a function"
  end →
  In (EError (action_name a) (VStr (n +:+ " " +:+ m +:+ " "))) (upd_results u)
  ∧ final_status u = failed.
Proof.
  intros HD Hd Hin Hp Hthrow.
  assert (Hcall : actionCall srv s (action_name a) (actionData (hookData h) a)
                  = Throws n m).
  { unfold actionCall. rewrite Hd.
    destruct (methods srv !! action_name a) as [fn|]; [done|].
    by destruct Hthrow as [-> ->]. }
  assert (He : In (EError (action_name a) (VStr (n +:+ " " +:+ m +:+ " ")))
                  (upd_results u)).
  { apply (performActions_records srv s h u a); try done.
    - by apply wrap_throws_off.
    - by rewrite Hcall. }
  split; [done|].
  eapply error_entry_fails; [by eapply performActions_tracks | exact He | done].
Qed.

(** ** Runs that stall, runs that cannot *)

Lemma iteratee_silent srv s data a x :
  raised x = None → raised (iteratee srv s data a x).2 = None →
  silent srv s data a →
  unsettled x < unsettled (iteratee srv s data a x).2.
Proof.
  intros Hr. unfold silent.
  iteratee_cases srv s data a x Hr; intros Hr' Hs; try done;
    try rewrite Hs in *; simpl; lia.
Qed.

Lemma each_silent srv s data actions : ∀ x a,
  raised (each srv s data actions x).2 = None →
  In a actions → silent srv s data a →
  0 < unsettled (each srv s data actions x).2.
Proof.
  induction actions as [|a0 rest IH]; intros x a; simpl; [intros _ []|].
  pose proof (iteratee_silent srv s data a0 x) as Hv.
  pose proof (iteratee_raised srv s data a0 x) as Hs.
  destruct (iteratee srv s data a0 x) as [a' x'] eqn:Hi.
  pose proof (each_unsettled srv s data rest x') as Hm.
  pose proof (each_raised srv s data rest x') as Hk.
  specialize (IH x' a).
  destruct (each srv s data rest x') as [rest' x'']. simpl in *.
  intros Hr Hin Hsil.
  destruct (raised x') as [r|] eqn:Hr'.
  { specialize (Hk r eq_refl). congruence. }
  destruct Hin as [->|Hin]; [|by apply IH].
  destruct (raised x) as [r|] eqn:Hrx.
  { specialize (Hs r eq_refl). congruence. }
  specialize (Hv eq_refl eq_refl Hsil). lia.
Qed.

Lemma silent_never_done srv s h a :
  In a (actions_of s (hookName h)) → silent srv s (hookData h) a →
  ∀ u, (performActions srv s h).2 ≠ Done u.
Proof.
  intros Hin Hsil u HD.
  destruct (performActions_Done _ _ _ _ HD) as (Hr & Hu & _).
  unfold start in *.
  pose proof (each_silent srv s (hookData h) _ _ a Hr Hin Hsil). lia.
Qed.

(** X5: when some action of a hook never calls back (a call expression
    that [str2fn] never answers for, whatever the timeout; or a plain
    method, which takes the timeout to be switched off), [performActions]
    never calls [done]: [completeHook] does not run, and the store is left
    as [logHook] left it. *)
Theorem silent_action_stalls srv s f now h c a :
  In a (actions_of s (hookName h)) → silent srv s (hookData h) a →
  (∀ u, (performActions srv s h).2 ≠ Done u)
  ∧ run_store (executeHook srv s f now h c) = (logHook s (logHook_err f) h c).1
  ∧ (plain a → deadline s = None).
Proof.
  intros Hin Hsil.
  pose proof (silent_never_done srv s h a Hin Hsil) as Hnd.
  split; [done|]. split.
  - rewrite executeHook_store.
    destruct ((performActions srv s h).2) as [u|u|r] eqn:Ho; [|done..].
    by destruct (Hnd u).
  - intros Hp. unfold silent, plain in *. rewrite Hp in Hsil.
    destruct (deadline s) as [ms|] eqn:Hd; [|done].
    by destruct (actionCall_deadline srv s ms (action_name a)
                   (actionData (hookData h) a) Hd) as [Hn _].
Qed.

Lemma silent_action_stalls_witness :
  silent Scenario.hung_server Scenario.notify_settings
    (hookData Scenario.notify_job) (ActString "sms.send(42)")
  ∧ ∀ u, (performActions Scenario.hung_server Scenario.notify_settings
            Scenario.notify_job).2 ≠ Done u.
Proof.
  assert (H : silent Scenario.hung_server Scenario.notify_settings
                (hookData Scenario.notify_job) (ActString "sms.send(42)"))
    by (vm_compute; reflexivity).
  split; [exact H|].
  exact (proj1 (silent_action_stalls Scenario.hung_server
                  Scenario.notify_settings no_faults 7 Scenario.notify_job
                  [Scenario.notify_job] (ActString "sms.send(42)")
                  ltac:(vm_compute; left; reflexivity) H)).
Defined.

Lemma thrown_error_is_recorded_witness :
  let u := mkUpdateHook
             [EError "sendEmail"
                (VStr "TypeError actionCall is not a function ");
              EOutput "logAudit" (VStr "logged")] (Some failed) in
  (performActions Cases.bare_server Cases.unbounded Scenario.job).2 = Done u
  ∧ final_status u = failed.
Proof.
  intros u.
  assert (H : (performActions Cases.bare_server Cases.unbounded
                 Scenario.job).2 = Done u) by (vm_compute; reflexivity).
  split; [exact H|].
  refine (proj2 (thrown_error_is_recorded Cases.bare_server Cases.unbounded
                   Scenario.job u (ActString "sendEmail") "TypeError"
                   "actionCall is not a function" H eq_refl _ eq_refl _)).
  - vm_compute. left. reflexivity.
  - vm_compute. split; reflexivity.
Defined.

Lemma await_fires ms action b x :
  (∀ d e o, b = CallsBack d e o → d ≤ ms) →
  Forall (λ t, fires t ≤ ms) (timers x) →
  Forall (λ t, fires t ≤ ms) (timers (await action b x)).
Proof.
  intros Hb Hx. destruct b as [n m|[|d] e o|]; simpl; try done.
  rewrite add_timer_perm. constructor; [|done]. simpl. by eapply Hb.
Qed.

Lemma iteratee_fires srv s ms data a x :
  deadline s = Some ms → plain a →
  Forall (λ t, fires t ≤ ms) (timers x) →
  Forall (λ t, fires t ≤ ms) (timers (iteratee srv s data a x).2).
Proof.
  intros Hd Hp Hx. destruct (raised x) as [r|] eqn:Hr.
  { by rewrite (iteratee_raised _ _ _ _ _ _ Hr). }
  destruct (actionCall_deadline srv s ms (action_name a) (actionData data a) Hd)
    as [_ Hle].
  iteratee_cases srv s data a x Hr; cbn [timers escapes].
  - unfold plain in Hp. congruence.
  - done.
  - destruct (leftover srv s (action_name a) (actionData data a)) as [ms'|]
      eqn:Hl; simpl; [|done].
    apply leftover_throws in Hl as [Hd' _].
    rewrite add_timer_perm. constructor; [|done]. simpl.
    rewrite Hd in Hd'. injection Hd' as <-. done.
  - by apply await_fires.
  - by apply await_fires.
Qed.

Lemma each_fires srv s ms data actions : ∀ x,
  deadline s = Some ms → Forall plain actions →
  Forall (λ t, fires t ≤ ms) (timers x) →
  Forall (λ t, fires t ≤ ms) (timers (each srv s data actions x).2).
Proof.
  induction actions as [|a rest IH]; intros x Hd Hall Hx; simpl; [done|].
  inversion Hall as [|? ? Ha Hrest]; subst.
  pose proof (iteratee_fires srv s ms data a x Hd Ha Hx) as Hi.
  destruct (iteratee srv s data a x) as [a' x'].
  specialize (IH x' Hd Hrest Hi).
  by destruct (each srv s data rest x') as [rest' x''].
Qed.

(** X6: under a timeout of [ms], a hook whose actions are all plain names
    of registered methods that do not throw always has its [done] called:
    every action is answered for, by its method or by the timeout, and the
    last entry is pushed no later than [ms] milliseconds after the
    start. *)
Theorem deadline_bounds_the_run srv s ms h :
  deadline s = Some ms →
  Forall (λ a, plain a
               ∧ ∃ fn, methods srv !! action_name a = Some fn
                       ∧ ∀ n m, fn (actionData (hookData h) a) ≠ Throws n m)
         (actions_of s (hookName h)) →
  ∃ u, (performActions srv s h).2 = Done u
       ∧ length (upd_results u) = length (actions_of s (hookName h))
       ∧ Forall (λ t, fires t ≤ ms) (timers (start srv s h).2).
Proof.
  intros Hd Hall.
  assert (Hplain : Forall plain (actions_of s (hookName h))).
  { eapply Forall_impl; [exact Hall|]. by intros a [Hp _]. }
  assert (Hreg : Forall (λ a, plain a ∧ is_Some (methods srv !! action_name a))
                   (actions_of s (hookName h))).
  { eapply Forall_impl; [exact Hall|]. intros a (Hp & fn & Hfn & _). eauto. }
  destruct (plain_actions_complete srv s ms h Hd Hreg) as [u HD].
  exists u. split; [done|]. split.
  - apply (performActions_length srv s h u HD).
    intros a fn n m Hin _ Hfn Ht.
    eapply List.Forall_forall in Hall as (_ & fn' & Hfn' & Hno); [|exact Hin].
    rewrite Hfn in Hfn'. injection Hfn' as <-. by destruct (Hno n m).
  - unfold start. by apply each_fires.
Qed.

Lemma deadline_bounds_the_run_witness :
  ∃ u, (performActions Scenario.slow_server Scenario.settings Scenario.job).2
       = Done u
       ∧ length (upd_results u) = 2.
Proof.
  destruct (deadline_bounds_the_run Scenario.slow_server Scenario.settings 30
              Scenario.job eq_refl) as (u & HD & Hl & _).
  - assert (Hacts : actions_of Scenario.settings (hookName Scenario.job)
                    = [ActString "sendEmail"; ActString "logAudit"])
      by (vm_compute; reflexivity).
    rewrite Hacts.
    repeat (apply List.Forall_cons;
            [split; [reflexivity|]; eexists;
             split; [vm_compute; reflexivity | intros n m; discriminate]|]).
    apply List.Forall_nil.
  - exists u. split; [exact HD | exact Hl].
Defined.

(** ** The documents a task table leaves alone *)

Lemma update_ids id set c :
  (∀ d, _id (set d) = _id d) → map _id (update id set c) = map _id c.
Proof.
  intros Hset. induction c as [|d c IH]; simpl; [done|].
  destruct (decide (_id d = id)); simpl; [by rewrite Hset|by rewrite IH].
Qed.

Lemma logHook_ids s err h c : map _id (logHook s err h c).1 = map _id c.
Proof. unfold logHook. simpl. destruct err; [done|]. by apply update_ids. Qed.

Lemma completeHook_ids now err h u c :
  map _id (completeHook now err h u c).1 = map _id c.
Proof. unfold completeHook. destruct err; simpl; [done|]. by apply update_ids. Qed.

Lemma executeHook_ids srv s f now h c :
  map _id (run_store (executeHook srv s f now h c)) = map _id c.
Proof.
  rewrite executeHook_store.
  destruct ((performActions srv s h).2);
    by rewrite ?completeHook_ids, logHook_ids.
Qed.

Lemma findOne_update_other id id' set c :
  (∀ d, _id (set d) = _id d) → id ≠ id' →
  findOne id (update id' set c) = findOne id c.
Proof.
  intros Hset Hne. rewrite findOne_update by done.
  rewrite decide_False by done. by destruct (findOne id c).
Qed.

Lemma executeHook_other srv s f now h c id :
  id ≠ _id h →
  findOne id (run_store (executeHook srv s f now h c)) = findOne id c.
Proof.
  intros Hne. rewrite executeHook_store.
  assert (Hlog : findOne id (logHook s (logHook_err f) h c).1 = findOne id c).
  { unfold logHook. simpl. destruct (logHook_err f); [done|].
    by apply findOne_update_other. }
  destruct ((performActions srv s h).2) as [u|u|r]; [|done..].
  unfold completeHook. destruct (completeHook_err f); simpl; [done|].
  by rewrite findOne_update_other.
Qed.

(** X7: running the task table of a hook neither adds nor removes a
    document, and every document with another [_id] reads back as it was:
    only the hook's own document is written. *)
Theorem executeHook_writes_one_document srv s f now h c :
  map _id (run_store (executeHook srv s f now h c)) = map _id c
  ∧ ∀ id, id ≠ _id h →
      findOne id (run_store (executeHook srv s f now h c)) = findOne id c.
Proof.
  split; [apply executeHook_ids|]. intros id. apply executeHook_other.
Qed.

Lemma findOne_NoDup c d :
  NoDup (map _id c) → In d c → findOne (_id d) c = Some d.
Proof.
  unfold findOne. induction c as [|d0 c IH]; simpl; [done|].
  intros Hnd [->|Hin].
  - by rewrite bool_decide_eq_true_2.
  - apply NoDup_cons in Hnd as [Hnotin Hnd].
    destruct (bool_decide_reflect (_id d0 = _id d)) as [He|He]; [|by apply IH].
    exfalso. apply Hnotin. rewrite He. apply list_elem_of_In, in_map.
    done.
Qed.

Lemma executeHook_marks srv s f now h c d :
  logHook_err f = None → findOne (_id h) c = Some d →
  ∃ d', findOne (_id h) (run_store (executeHook srv s f now h c)) = Some d'
        ∧ status d' ≠ waiting.
Proof.
  intros Hl Hd. rewrite executeHook_store, Hl.
  assert (H1 : findOne (_id h) (logHook s None h c).1
               = Some (set_status processing d)).
  { unfold logHook. simpl. by apply findOne_update_same. }
  destruct ((performActions srv s h).2) as [u|u|r];
    [|by eexists; split; [exact H1|]..].
  unfold completeHook. destruct (completeHook_err f); simpl.
  - by eexists; split; [exact H1|].
  - eexists. split; [by apply findOne_update_same|]. simpl.
    unfold final_status. by case_decide.
Qed.

(** X8: once [logHook] has written to the document of a hook, no later
    cycle of [updateHooks] fetches that hook again, however its run went:
    the document is [processing], [complete] or [failed], and
    [updateHooks] reads [waiting] documents only. *)
Theorem started_hook_is_not_refetched srv s f now h c srv' s' f' dbErr now' d :
  NoDup (map _id c) →
  logHook_err f = None →
  is_Some (findOne (_id h) c) →
  In d (tick_fetched
          (updateHooks srv' s' f' dbErr now'
             (run_store (executeHook srv s f now h c)))) →
  _id d ≠ _id h.
Proof.
  intros Hnd Hl [d0 Hd0] Hin Heq.
  apply updateHooks_fetched in Hin as [Hin Hw].
  destruct (executeHook_marks srv s f now h c d0 Hl Hd0) as (d' & Hd' & Hs).
  assert (Hnd' : NoDup (map _id (run_store (executeHook srv s f now h c)))).
  { by rewrite executeHook_ids. }
  pose proof (findOne_NoDup _ _ Hnd' Hin) as Hf.
  rewrite Heq, Hd' in Hf. injection Hf as ->. done.
Qed.

Lemma started_hook_is_not_refetched_witness :
  In Scenario.notify_job
     (tick_fetched
        (updateHooks Scenario.server Scenario.settings (λ _, no_faults)
           None 9
           (run_store (executeHook Scenario.server Scenario.settings
                         no_faults 7 Scenario.job Cases.store))))
  ∧ _id Scenario.notify_job ≠ _id Scenario.job.
Proof.
  assert (H : In Scenario.notify_job
                (tick_fetched
                   (updateHooks Scenario.server Scenario.settings
                      (λ _, no_faults) None 9
                      (run_store (executeHook Scenario.server
                                    Scenario.settings no_faults 7
                                    Scenario.job Cases.store)))))
    by (vm_compute; left; reflexivity).
  split; [exact H|].
  refine (started_hook_is_not_refetched Scenario.server Scenario.settings
            no_faults 7 Scenario.job Cases.store Scenario.server
            Scenario.settings (λ _, no_faults) None 9 Scenario.notify_job
            _ eq_refl _ H).
  - compute_done.
  - vm_compute. eauto.
Defined.

(** X9: a hook whose name has no configured actions (no entry in the
    table, or an empty list) makes no call and completes at once: its
    document gets empty [results] and status [complete]. *)
Theorem hook_without_actions_completes srv s f now h c d :
  actions_of s (hookName h) = [] →
  completeHook_err f = None →
  findOne (_id h) c = Some d →
  performActions srv s h = (s, [], Done (mkUpdateHook [] None))
  ∧ ∃ d', findOne (_id h) (run_store (executeHook srv s f now h c)) = Some d'
          ∧ results d' = Some [] ∧ status d' = complete.
Proof.
  intros Hacts Hc Hd.
  assert (HP : performActions srv s h = (s, [], Done (mkUpdateHook [] None))).
  { unfold performActions, start. rewrite Hacts. simpl.
    unfold actions_of in Hacts.
    destruct (hooks s !! hookName h) as [acts|] eqn:Hh; [|done].
    simpl in Hacts. subst acts. rewrite insert_id by done. by destruct s. }
  split; [done|].
  rewrite executeHook_store, HP. simpl. unfold completeHook. rewrite Hc. simpl.
  assert (H1 : ∃ d1, findOne (_id h) (logHook s (logHook_err f) h c).1 = Some d1).
  { unfold logHook. simpl. destruct (logHook_err f); [eauto|].
    eexists. by apply findOne_update_same. }
  destruct H1 as [d1 H1]. eexists. split; [by apply findOne_update_same|done].
Qed.

Lemma hook_without_actions_completes_witness :
  performActions Scenario.server Scenario.settings Scenario.notify_job
  = (Scenario.settings, [], Done (mkUpdateHook [] None)).
Proof.
  exact (proj1 (hook_without_actions_completes Scenario.server
                  Scenario.settings no_faults 7 Scenario.notify_job
                  Cases.store Scenario.notify_job
                  ltac:(vm_compute; reflexivity) eq_refl
                  ltac:(vm_compute; reflexivity))).
Defined.

(** X10: when the write of [completeHook] fails after [logHook] marked
    the hook, the error goes to the callback of the task table, nothing
    more is logged for the hook, and its document stays [processing],
    without results. *)
Theorem failed_result_write_strands_hook srv s f now h c u e d :
  logHook_err f = None →
  completeHook_err f = Some e →
  (performActions srv s h).2 = Done u →
  findOne (_id h) c = Some d →
  run_error (executeHook srv s f now h c) = Some e
  ∧ run_effects (executeHook srv s f now h c)
    = (logHook s None h c).2 ++ (performActions srv s h).1.2
  ∧ findOne (_id h) (run_store (executeHook srv s f now h c))
    = Some (set_status processing d).
Proof.
  intros Hl Hc HD Hd. split; [|split].
  - unfold executeHook. destruct (logHook _ _ _ _) as [c1 e1].
    destruct (performActions srv s h) as [[s' e2] o]. simpl in HD. subst o.
    unfold completeHook. by rewrite Hc.
  - unfold executeHook. rewrite Hl. destruct (logHook _ _ _ _) as [c1 e1].
    destruct (performActions srv s h) as [[s' e2] o]. simpl in HD. subst o.
    unfold completeHook. rewrite Hc. simpl. by rewrite app_nil_r.
  - rewrite executeHook_store, HD, Hl. unfold completeHook. rewrite Hc. simpl.
    unfold logHook. simpl. by apply findOne_update_same.
Qed.

Lemma failed_result_write_strands_hook_witness :
  status <$> findOne 1
    (run_store (executeHook Scenario.server Scenario.settings
                  (mkFaults None (Some Scenario.write_failed)) 7
                  Scenario.job Cases.store))
  = Some processing.
Proof.
  assert (HD : (performActions Scenario.server Scenario.settings
                  Scenario.job).2
               = Done (mkUpdateHook [EOutput "logAudit" (VStr "logged");
                                     EOutput "sendEmail" (VStr "sent")] None))
    by (vm_compute; reflexivity).
  pose proof (failed_result_write_strands_hook Scenario.server
                Scenario.settings (mkFaults None (Some Scenario.write_failed))
                7 Scenario.job Cases.store _ Scenario.write_failed
                Scenario.job eq_refl eq_refl HD
                ltac:(vm_compute; reflexivity)) as (_ & _ & H).
  change (_id Scenario.job) with 1 in H. by rewrite H.
Defined.

(** ** Cycles and the collection *)

Lemma execute_ids srv f now announce batch : ∀ s c,
  map _id (execute srv s f now announce batch c).1.1.2 = map _id c.
Proof.
  induction batch as [|h rest IH]; intros s c; simpl; [done|].
  specialize (IH (run_settings (executeHook srv s (f (_id h)) now h c))
                 (run_store (executeHook srv s (f (_id h)) now h c))).
  destruct (execute srv _ f now announce rest _) as [[[s' c'] e] outs].
  simpl in *. by rewrite IH, executeHook_ids.
Qed.

(** X11: a polling cycle never adds or removes a document, in either
    revision of the loop: the collection holds the same [_id]s, in the same
    order, after [updateHooks], after the tick pipeline and after
    [timer]. *)
Theorem cycle_keeps_the_documents srv s f countErr counts dbErr now continue
    stopped c :
  map _id (tick_store (updateHooks srv s f dbErr now c)) = map _id c
  ∧ map _id (tick_store (ProcessHooks.processHooks srv s f counts dbErr now c))
    = map _id c
  ∧ map _id (tick_store
               (Batching.timer srv s f countErr counts dbErr now continue
                  stopped c))
    = map _id c.
Proof.
  assert (Hq : map _id (tick_store (Batching.queryHooks srv s f dbErr now c))
               = map _id c).
  { unfold Batching.queryHooks. destruct dbErr; [done|].
    destruct (ProcessHooks.find_due s now c) as [|h batch]; [done|].
    pose proof (execute_ids srv f now false (h :: batch) s c) as He.
    by destruct (execute _ _ _ _ _ _ _) as [[[s' c'] e] outs]. }
  split; [|split].
  - unfold updateHooks. destruct dbErr; [done|].
    destruct (List.filter _ c) as [|h batch]; [done|].
    pose proof (execute_ids srv f now false (h :: batch) s c) as He.
    by destruct (execute _ _ _ _ _ _ _) as [[[s' c'] e] outs].
  - unfold ProcessHooks.processHooks.
    destruct (ProcessHooks.logHooks s counts) as [proceed e1].
    destruct (ProcessHooks.hooks s now dbErr proceed c) as [err|batch]; [done|].
    pose proof (execute_ids srv f now true batch s c) as He.
    by destruct (execute _ _ _ _ _ _ _) as [[[s' c'] e] outs].
  - unfold Batching.timer. destruct continue; [|done]. simpl.
    by destruct (bool_decide _).
Qed.

(** X12: a hook enqueued under a configured name is fetched by the next
    cycle of [updateHooks] that manages to read the collection. *)
Theorem enqueued_hook_is_fetched srv s s' f now now' name data c :
  is_Some (hooks s !! name) →
  In (mkDoc (fresh_id c) name data waiting None now None None 0)
     (tick_fetched
        (updateHooks srv s' f None now' (hook s None now name data c).1)).
Proof.
  intros Hn. rewrite hook_found by by apply hook_exists_configured.
  simpl. unfold updateHooks.
  assert (Hin : In (mkDoc (fresh_id c) name data waiting None now None None 0)
                  (List.filter (λ d, bool_decide (status d = waiting))
                     (c ++ [mkDoc (fresh_id c) name data waiting None now
                              None None 0]))).
  { apply filter_In. split; [|done]. apply in_or_app. right. by left. }
  destruct (List.filter _ _) as [|h batch]; [done|].
  by destruct (execute _ _ _ _ _ _ _) as [[[s1 c1] e] outs].
Qed.

Lemma enqueued_hook_is_fetched_witness :
  In (mkDoc 9 "welcome" Scenario.payload waiting None 7 None None 0)
     (tick_fetched
        (updateHooks Scenario.server Scenario.settings (λ _, no_faults) None 9
           (hook Scenario.settings None 7 "welcome" Scenario.payload
              Cases.store).1)).
Proof.
  exact (enqueued_hook_is_fetched Scenario.server Scenario.settings
           Scenario.settings (λ _, no_faults) 7 9 "welcome" Scenario.payload
           Cases.store ltac:(vm_compute; eauto)).
Defined.

(** ** The polling loop, alive and stopped *)

Lemma loop_step_alive s l ev l' e :
  (continueProcessing l = true → pending l + in_flight l = 1) →
  loop_step s l ev = Some (l', e) →
  continueProcessing l' = true → pending l' + in_flight l' = 1.
Proof.
  unfold loop_step. intros Hl. destruct ev as [|err|].
  - destruct (pending l) as [|p] eqn:Hp; [done|].
    intros [= <- _]. unfold timer. simpl.
    destruct (continueProcessing l); simpl; [|done]. intros _.
    specialize (Hl eq_refl). lia.
  - destruct (in_flight l) as [|n] eqn:Hn; [done|].
    unfold cycle_callback. simpl.
    destruct (continueProcessing l); intros [= <- _]; simpl; [|done].
    intros _. specialize (Hl eq_refl). lia.
  - by intros [= <- _].
Qed.

Lemma loop_run_alive s evs : ∀ l l',
  (continueProcessing l = true → pending l + in_flight l = 1) →
  loop_run s l evs = Some l' →
  continueProcessing l' = true → pending l' + in_flight l' = 1.
Proof.
  induction evs as [|ev evs IH]; intros l l' Hl; simpl.
  - by intros [= <-].
  - destruct (loop_step s l ev) as [[l1 e]|] eqn:Hs; [|done].
    apply IH. by eapply loop_step_alive.
Qed.

(** X13: as long as [onPreStop] has not run, the loop of [src/index.js]
    cannot die out: in every state it can reach with the flag still set,
    either one call of [timer] is pending or one cycle is in flight.  Only
    a cycle whose callback never comes can bring the polling to a halt. *)
Theorem poller_stays_alive s evs l :
  loop_run s loop_init evs = Some l →
  continueProcessing l = true →
  pending l + in_flight l = 1.
Proof.
  apply loop_run_alive. intros _. reflexivity.
Qed.

Lemma poller_stays_alive_witness :
  loop_run Scenario.settings loop_init
    [CycleCompletes None; TimerFires; CycleCompletes None]
  = Some (mkLoop true 1 0)
  ∧ pending (mkLoop true 1 0) + in_flight (mkLoop true 1 0) = 1.
Proof.
  assert (H : loop_run Scenario.settings loop_init
                [CycleCompletes None; TimerFires; CycleCompletes None]
              = Some (mkLoop true 1 0)) by (vm_compute; reflexivity).
  split; [exact H|].
  exact (poller_stays_alive Scenario.settings _ _ H eq_refl).
Defined.

Lemma loop_run_stopped s evs : ∀ l l',
  continueProcessing l = false →
  loop_run s l evs = Some l' →
  continueProcessing l' = false
  ∧ length (List.filter is_tick evs) + pending l' + in_flight l'
    = pending l + in_flight l.
Proof.
  induction evs as [|ev evs IH]; intros l l' Hc; simpl.
  - intros [= <-]. split; [done | lia].
  - destruct (loop_step s l ev) as [[l1 e]|] eqn:Hs; [|done].
    intros Hrun.
    assert (H1 : continueProcessing l1 = false
                 ∧ (if is_tick ev then 1 else 0) + pending l1 + in_flight l1
                   = pending l + in_flight l).
    { unfold loop_step in Hs. destruct ev as [|err|]; simpl.
      - destruct (pending l) as [|p] eqn:Hp; [done|].
        injection Hs as <- _. unfold timer. simpl. rewrite Hc. simpl.
        split; [done | lia].
      - destruct (in_flight l) as [|n] eqn:Hn; [done|].
        unfold cycle_callback in Hs. simpl in Hs. rewrite Hc in Hs.
        injection Hs as <- _. simpl. split; [done | lia].
      - injection Hs as <- _. simpl. split; [done | lia]. }
    destruct H1 as [Hc1 Hm]. destruct (IH l1 l' Hc1 Hrun) as [Hc' Hm'].
    split; [done|]. destruct (is_tick ev); simpl; lia.
Qed.

(** X14: once [onPreStop] has cleared the flag, the loop of
    [src/index.js] winds down: whatever follows, at most one more thing
    happens (the pending call of [timer] returns at once, or the cycle in
    flight calls back), and after it nothing is pending or in flight. *)
Theorem stop_drains_the_loop s evs0 l evs l' :
  loop_run s loop_init evs0 = Some l →
  continueProcessing l = false →
  loop_run s l evs = Some l' →
  continueProcessing l' = false
  ∧ length (List.filter is_tick evs) + pending l' + in_flight l' ≤ 1.
Proof.
  intros Hreach Hc Hrun.
  pose proof (loop_run_one s evs0 _ _ loop_init_one Hreach) as H1.
  unfold one_outstanding in H1.
  destruct (loop_run_stopped s evs l l' Hc Hrun) as [Hc' Hm].
  split; [done | lia].
Qed.

Lemma stop_drains_the_loop_witness :
  loop_run Scenario.settings (mkLoop false 0 1) [CycleCompletes None; PreStop]
  = Some (mkLoop false 0 0)
  ∧ length (List.filter is_tick [CycleCompletes None; PreStop])
    + pending (mkLoop false 0 0) + in_flight (mkLoop false 0 0) ≤ 1.
Proof.
  split; [vm_compute; reflexivity|].
  exact (proj2 (stop_drains_the_loop Scenario.settings [PreStop]
                  (mkLoop false 0 1) [CycleCompletes None; PreStop]
                  (mkLoop false 0 0)
                  ltac:(vm_compute; reflexivity) eq_refl
                  ltac:(vm_compute; reflexivity))).
Defined.

(** ** Arming the next tick *)

Lemma iteratee_calls_quiet srv s data a x :
  Forall (λ e, is_set_timeout e = false) (calls x) →
  Forall (λ e, is_set_timeout e = false) (calls (iteratee srv s data a x).2).
Proof.
  intros Hx. destruct (raised x) as [r|] eqn:Hr.
  { by rewrite (iteratee_raised _ _ _ _ _ _ Hr). }
  iteratee_cases srv s data a x Hr; cbn [calls escapes];
    rewrite ?await_calls; cbn [calls invoked]; try done;
    (apply Forall_app; split; [done|by repeat constructor]).
Qed.

Lemma each_calls_quiet srv s data actions : ∀ x,
  Forall (λ e, is_set_timeout e = false) (calls x) →
  Forall (λ e, is_set_timeout e = false) (calls (each srv s data actions x).2).
Proof.
  induction actions as [|a rest IH]; intros x Hx; simpl; [done|].
  pose proof (iteratee_calls_quiet srv s data a x Hx) as Hi.
  destruct (iteratee srv s data a x) as [a' x'].
  specialize (IH x' Hi). by destruct (each srv s data rest x').
Qed.

Lemma executeHook_quiet srv s f now h c :
  Forall (λ e, is_set_timeout e = false)
         (run_effects (executeHook srv s f now h c)).
Proof.
  assert (Hcalls : Forall (λ e, is_set_timeout e = false)
                     (performActions srv s h).1.2).
  { unfold performActions, start.
    pose proof (each_calls_quiet srv s (hookData h) (actions_of s (hookName h))
                  (mkExec (mkUpdateHook [] None) [] 0 [] None)
                  ltac:(constructor)) as He.
    by destruct (each _ _ _ _ _) as [acts x]. }
  assert (Hlog : Forall (λ e, is_set_timeout e = false)
                   (logHook s (logHook_err f) h c).2).
  { unfold logHook. simpl.
    destruct (logHook_err f), (log s); by repeat constructor. }
  unfold executeHook. destruct (logHook _ _ _ _) as [c1 e1].
  destruct (performActions srv s h) as [[s' e2] [u|u|r]]; simpl in *.
  - destruct (completeHook _ _ _ _ _) as [c2 err]. simpl.
    rewrite !Forall_app. repeat split; try done.
    unfold logComplete. destruct err, (log s); by repeat constructor.
  - rewrite Forall_app. by split.
  - rewrite Forall_app. by split.
Qed.

Lemma execute_quiet srv f now announce batch : ∀ s c,
  Forall (λ e, is_set_timeout e = false)
         (execute srv s f now announce batch c).1.2.
Proof.
  induction batch as [|h rest IH]; intros s c; simpl; [constructor|].
  specialize (IH (run_settings (executeHook srv s (f (_id h)) now h c))
                 (run_store (executeHook srv s (f (_id h)) now h c))).
  pose proof (executeHook_quiet srv s (f (_id h)) now h c) as Hh.
  destruct (execute srv _ f now announce rest _) as [[[s' c'] e] outs].
  simpl in *. rewrite !Forall_app. repeat split; try done.
  destruct announce; by repeat constructor.
Qed.

Lemma filter_quiet l :
  Forall (λ e, is_set_timeout e = false) l → List.filter is_set_timeout l = [].
Proof.
  induction 1 as [|e l He _ IH]; simpl; [done|]. by rewrite He.
Qed.

Lemma queryHooks_quiet srv s f dbErr now c :
  Forall (λ e, is_set_timeout e = false)
         (tick_effects (Batching.queryHooks srv s f dbErr now c)).
Proof.
  unfold Batching.queryHooks. destruct dbErr; [constructor|].
  destruct (ProcessHooks.find_due s now c) as [|h batch]; [constructor|].
  pose proof (execute_quiet srv f now false (h :: batch) s c) as He.
  by destruct (execute _ _ _ _ _ _ _) as [[[s' c'] e] outs].
Qed.

(** X15: one call of the later [timer] arms the next tick at most once.
    It does so when hooks are still processing (whether or not the server
    is stopping), and otherwise when [queryHooks] has called back and
    [onPreStop] has not run; a call made after [onPreStop], or a cycle
    whose callback never comes, arms nothing. *)
Theorem timer_arms_at_most_once srv s f countErr counts dbErr now continue
    stopped c :
  length (List.filter is_set_timeout
            (tick_effects
               (Batching.timer srv s f countErr counts dbErr now continue
                  stopped c)))
  = if negb continue then 0
    else if negb (bool_decide (ProcessHooks.cnt_processing counts = 0)) then 1
    else match tick_allDone (Batching.queryHooks srv s f dbErr now c) with
         | Some _ => if stopped then 0 else 1
         | None => 0
         end.
Proof.
  unfold Batching.timer. destruct continue; simpl; [|done].
  remember (match countErr with Some e => [LogError e] | None => [] end
            ++ (if log s
                then [LogStatus (ProcessHooks.cnt_processing counts)]
                else [])) as e1 eqn:He1.
  assert (H1 : List.filter is_set_timeout e1 = []).
  { subst e1. by destruct countErr, (log s). }
  destruct (bool_decide _); simpl.
  - rewrite !List.filter_app, H1,
      (filter_quiet _ (queryHooks_quiet _ _ _ _ _ _)).
    simpl. destruct (tick_allDone _) as [[e|]|]; simpl; try done;
      by destruct stopped.
  - by rewrite List.filter_app, H1.
Qed.

(** ** The activities revision *)

Lemma mark_not_waiting c :
  Forall (λ d, status d ≠ waiting)
         (Activities.mark
            (map _id (List.filter (λ d, bool_decide (status d = waiting)) c))
            c).
Proof.
  unfold Activities.mark. apply List.Forall_forall. intros d' Hd'.
  apply in_map_iff in Hd' as (d & <- & Hd).
  destruct (bool_decide_reflect
              (_id d ∈ map _id
                 (List.filter (λ d, bool_decide (status d = waiting)) c)))
    as [Hin|Hout]; [done|].
  intros Hw. apply Hout. apply list_elem_of_In, in_map, filter_In.
  split; [done|]. by apply bool_decide_eq_true.
Qed.

Lemma update_not_waiting id set c :
  (∀ d, status (set d) ≠ waiting) →
  Forall (λ d, status d ≠ waiting) c →
  Forall (λ d, status d ≠ waiting) (update id set c).
Proof.
  intros Hset. induction 1 as [|d c Hd Hc IH]; simpl; [constructor|].
  destruct (decide (_id d = id)); constructor; done.
Qed.

Lemma runActivity_not_waiting srv s err now a c :
  Forall (λ d, status d ≠ waiting) c →
  Forall (λ d, status d ≠ waiting)
         (Activities.runActivity srv s err now a c).1.1.
Proof.
  intros Hc. unfold Activities.runActivity.
  destruct (Activities.performActions srv s a) as [e2 [u|u|r]]; simpl;
    [|done..].
  unfold Activities.completeActivity. destruct err; simpl; [done|].
  apply update_not_waiting; [|done]. intros d. simpl.
  unfold final_status. by case_decide.
Qed.

Lemma runBatch_not_waiting srv s f now batch : ∀ c,
  Forall (λ d, status d ≠ waiting) c →
  Forall (λ d, status d ≠ waiting)
         (Activities.runBatch srv s f now batch c).1.1.1.
Proof.
  induction batch as [|a rest IH]; intros c Hc; simpl; [done|].
  pose proof (runActivity_not_waiting srv s (f (_id a)) now a c Hc) as Ha.
  destruct (Activities.runActivity srv s (f (_id a)) now a c)
    as [[c1 e1] out]. simpl in Ha.
  specialize (IH c1 Ha).
  destruct (Activities.runBatch srv s f now rest c1) as [[[c2 e2] outs] r].
  by destruct (Activities.escaped srv s a).
Qed.

Lemma updateActivities_fetched srv s markErr f now c :
  Activities.cycle_fetched
    (Activities.updateActivities srv s None markErr f now c)
  = List.filter (λ d, bool_decide (status d = waiting)) c.
Proof.
  unfold Activities.updateActivities.
  destruct (List.filter (λ d, bool_decide (status d = waiting)) c)
    as [|a batch] eqn:Hf; [done|].
  by destruct (Activities.runBatch srv s f now (a :: batch) _)
    as [[[c2 e] outs] r].
Qed.

(** X16: a cycle of [updateActivities] that can read and mark the
    collection claims every waiting activity at once, without a cap, and
    leaves no document [waiting]: each is [processing], or [complete] or
    [failed] when its run got that far. *)
Theorem activities_are_all_claimed srv s f now c :
  Activities.cycle_fetched (Activities.updateActivities srv s None None f now c)
  = List.filter (λ d, bool_decide (status d = waiting)) c
  ∧ Forall (λ d, status d ≠ waiting)
      (Activities.cycle_store
         (Activities.updateActivities srv s None None f now c)).
Proof.
  unfold Activities.updateActivities.
  pose proof (mark_not_waiting c) as Hm.
  destruct (List.filter (λ d, bool_decide (status d = waiting)) c)
    as [|a batch] eqn:Hf.
  - split; [done|]. simpl. apply List.Forall_forall. intros d Hd Hw.
    assert (Hin : In d (List.filter (λ d, bool_decide (status d = waiting)) c)).
    { apply filter_In. split; [done|]. by apply bool_decide_eq_true. }
    by rewrite Hf in Hin.
  - pose proof (runBatch_not_waiting srv s f now (a :: batch) _ Hm) as Hb.
    destruct (Activities.runBatch srv s f now (a :: batch) _)
      as [[[c2 e] outs] r]. by split.
Qed.

Lemma activities_actions_of_none s name :
  Activities.activities s !! name = None → Activities.actions_of s name = [].
Proof. unfold Activities.actions_of. by intros ->. Qed.

(** X17: the [activity] method enqueues a document whatever the name, and
    the next cycle of [updateActivities] that can read the collection
    fetches it; when the name has no entry in [settings.activities], its
    run calls no method and is done with empty results. *)
Theorem any_activity_is_enqueued srv s s' markErr f now now' name data c :
  In (mkDoc (fresh_id c) name data waiting None now None None 0)
     (Activities.cycle_fetched
        (Activities.updateActivities srv s' None markErr f now'
           (Activities.activity s None now name data c).1))
  ∧ (Activities.activities s' !! name = None →
     Activities.performActions srv s'
       (mkDoc (fresh_id c) name data waiting None now None None 0)
     = ([], Done (mkUpdateHook [] None))).
Proof.
  split.
  - rewrite updateActivities_fetched. unfold Activities.activity.
    apply filter_In. split; [|done]. apply in_or_app. right. by left.
  - intros Hn. unfold Activities.performActions, Activities.start. simpl.
    by rewrite (activities_actions_of_none _ _ Hn).
Qed.

Lemma poll_step_one p ev p' :
  Activities.armed p + Activities.running p = 1 →
  Activities.poll_step p ev = Some p' →
  Activities.armed p' + Activities.running p' = 1.
Proof.
  unfold Activities.poll_step. intros Hp. destruct ev.
  - destruct (Activities.armed p) eqn:Ha; [done|].
    intros [= <-]. simpl. lia.
  - destruct (Activities.running p) eqn:Hr; [done|].
    intros [= <-]. simpl. lia.
Qed.

(** X18: the loop of the activities revision has no stop flag: in every
    state it can reach, exactly one call of [timer] is pending or exactly
    one cycle is in flight, so cycles never overlap and the polling goes
    on for as long as every cycle calls back. *)
Theorem activities_poll_forever evs p :
  Activities.poll_run Activities.poll_init evs = Some p →
  Activities.armed p + Activities.running p = 1.
Proof.
  assert (H : ∀ evs p0 p, Activities.armed p0 + Activities.running p0 = 1 →
                Activities.poll_run p0 evs = Some p →
                Activities.armed p + Activities.running p = 1).
  { clear. induction evs as [|ev evs IH]; intros p0 p Hp; simpl.
    - by intros [= <-].
    - destruct (Activities.poll_step p0 ev) as [p1|] eqn:Hs; [|done].
      apply IH. by eapply poll_step_one. }
  apply H. reflexivity.
Qed.

Lemma activities_poll_forever_witness :
  Activities.poll_run Activities.poll_init
    [Activities.Completes; Activities.Elapses; Activities.Completes]
  = Some (Activities.mkPoll 1 0)
  ∧ Activities.armed (Activities.mkPoll 1 0)
    + Activities.running (Activities.mkPoll 1 0) = 1.
Proof.
  assert (H : Activities.poll_run Activities.poll_init
                [Activities.Completes; Activities.Elapses; Activities.Completes]
              = Some (Activities.mkPoll 1 0)) by (vm_compute; reflexivity).
  split; [exact H|]. exact (activities_poll_forever _ _ H).
Defined.

Lemma activities_each_app srv s data l1 l2 x :
  Activities.each srv s data (l1 ++ l2) x
  = Activities.each srv s data l2 (Activities.each srv s data l1 x).
Proof. unfold Activities.each. apply foldl_app. Qed.

Lemma activities_each_cons srv s data a rest x :
  Activities.each srv s data (a :: rest) x
  = Activities.each srv s data rest (Activities.iteratee srv s data a x).
Proof. reflexivity. Qed.

Lemma activities_iteratee_raised srv s data a x r :
  raised x = Some r →
  raised (Activities.iteratee srv s data a x) = Some r
  ∧ unsettled (Activities.iteratee srv s data a x) = S (unsettled x).
Proof. unfold Activities.iteratee. by intros ->. Qed.

Lemma activities_iteratee_unsettled srv s data a x :
  unsettled x ≤ unsettled (Activities.iteratee srv s data a x).
Proof.
  unfold Activities.iteratee. destruct (raised x); [simpl; lia|].
  destruct (Activities.actionCall srv s a data) eqn:Hb.
  - unfold Activities.thrown.
    destruct (Activities.leftover srv s a data); simpl; lia.
  - apply (await_unsettled a _ (invoked a data x)).
  - apply (await_unsettled a _ (invoked a data x)).
Qed.

Lemma activities_each_raised srv s data actions : ∀ x r,
  raised x = Some r → raised (Activities.each srv s data actions x) = Some r.
Proof.
  induction actions as [|a rest IH]; intros x r Hr; [done|].
  rewrite activities_each_cons. apply IH.
  by apply activities_iteratee_raised.
Qed.

Lemma activities_each_unsettled srv s data actions : ∀ x,
  unsettled x ≤ unsettled (Activities.each srv s data actions x).
Proof.
  induction actions as [|a rest IH]; intros x; [done|].
  rewrite activities_each_cons.
  pose proof (activities_iteratee_unsettled srv s data a x).
  specialize (IH (Activities.iteratee srv s data a x)). lia.
Qed.

Lemma activities_actionCall_throws srv s a data :
  match Activities.own_method srv a with
  | None => True
  | Some fn => ∃ n m, fn data = Throws n m
  end →
  ∃ n m, Activities.actionCall srv s a data = Throws n m.
Proof.
  unfold Activities.actionCall.
  destruct (Activities.own_method srv a) as [fn|].
  - intros (n & m & ->). exists n, m. by destruct (Activities.deadline s).
  - intros _. destruct (Activities.deadline s); eauto.
Qed.

Lemma activities_each_throws srv s data actions a : ∀ x,
  In a actions →
  match Activities.own_method srv a with
  | None => True
  | Some fn => ∃ n m, fn data = Throws n m
  end →
  ∃ r, raised (Activities.each srv s data actions x) = Some r.
Proof.
  induction actions as [|a0 rest IH]; intros x; [intros []|].
  intros [->|Hin] Hthrow; rewrite activities_each_cons; [|by apply IH].
  destruct (raised x) as [r|] eqn:Hr.
  - exists r. apply activities_each_raised.
    by apply activities_iteratee_raised.
  - destruct (activities_actionCall_throws srv s a data Hthrow)
      as (n & m & Hcall).
    exists (Raise n m). apply activities_each_raised.
    unfold Activities.iteratee, Activities.thrown. rewrite Hr, Hcall.
    by destruct (Activities.leftover srv s a data).
Qed.

(** With the timeout off, or for a missing method, no timer is left to
    call [eachDone] for the action that threw. *)
Lemma activities_each_never_done srv s data actions a : ∀ x,
  In a actions →
  match Activities.own_method srv a with
  | None => True
  | Some fn => ∃ n m, fn data = Throws n m
  end →
  Activities.deadline s = None ∨ Activities.own_method srv a = None →
  0 < unsettled (Activities.each srv s data actions x).
Proof.
  induction actions as [|a0 rest IH]; intros x; [intros []|].
  intros [->|Hin] Hthrow Hoff; rewrite activities_each_cons; [|by apply IH].
  pose proof (activities_each_unsettled srv s data rest
                (Activities.iteratee srv s data a x)) as Hm.
  assert (0 < unsettled (Activities.iteratee srv s data a x)); [|lia].
  destruct (raised x) as [r|] eqn:Hr.
  - destruct (activities_iteratee_raised srv s data a x r Hr) as [_ ->]. lia.
  - destruct (activities_actionCall_throws srv s a data Hthrow)
      as (n & m & Hcall).
    assert (Hl : Activities.leftover srv s a data = None).
    { unfold Activities.leftover.
      destruct Hoff as [->| ->]; [|done].
      by destruct (Activities.own_method srv a). }
    unfold Activities.iteratee, Activities.thrown. rewrite Hr, Hcall, Hl.
    simpl. lia.
Qed.

Lemma activities_iteratee_answers srv s ms data b g x :
  Activities.deadline s = Some ms →
  Activities.own_method srv b = Some g →
  (∀ n m, g data ≠ Throws n m) →
  raised x = None →
  raised (Activities.iteratee srv s data b x) = None
  ∧ unsettled (Activities.iteratee srv s data b x) = unsettled x.
Proof.
  intros Hd Hg Hno Hr.
  assert (Hcall : ∃ d e o,
            Activities.actionCall srv s b data = CallsBack d e o).
  { unfold Activities.actionCall. rewrite Hg, Hd.
    destruct (g data) as [n m|d e o|] eqn:Hgd; simpl.
    - by destruct (Hno n m).
    - destruct (d <? ms); eauto.
    - eauto. }
  destruct Hcall as (d & e & o & Hcall).
  unfold Activities.iteratee. rewrite Hr, Hcall.
  destruct (await_settles b (CallsBack d e o) (invoked b data x)) as [-> ->];
    done.
Qed.

Lemma activities_each_answers srv s ms data pre : ∀ x,
  Activities.deadline s = Some ms →
  Forall (λ b, ∃ g, Activities.own_method srv b = Some g
                    ∧ ∀ n m, g data ≠ Throws n m) pre →
  raised x = None →
  raised (Activities.each srv s data pre x) = None
  ∧ unsettled (Activities.each srv s data pre x) = unsettled x.
Proof.
  induction pre as [|b pre IH]; intros x Hd Hall Hr; [done|].
  inversion Hall as [|? ? (g & Hg & Hno) Hrest]; subst.
  rewrite activities_each_cons.
  destruct (activities_iteratee_answers srv s ms data b g x Hd Hg Hno Hr)
    as [Hr' Hu'].
  destruct (IH _ Hd Hrest Hr') as [Hr'' Hu'']. split; [done | congruence].
Qed.

Lemma activities_iteratee_tracks srv s data a x :
  tracks (updateHook x) →
  tracks (updateHook (Activities.iteratee srv s data a x)).
Proof.
  intros Hx. unfold Activities.iteratee. destruct (raised x); [done|].
  destruct (Activities.actionCall srv s a data).
  - unfold Activities.thrown.
    by destruct (Activities.leftover srv s a data).
  - by apply await_tracks.
  - by apply await_tracks.
Qed.

Lemma activities_each_tracks srv s data actions : ∀ x,
  tracks (updateHook x) →
  tracks (updateHook (Activities.each srv s data actions x)).
Proof.
  induction actions as [|a rest IH]; intros x Hx; [done|].
  rewrite activities_each_cons. by apply IH, activities_iteratee_tracks.
Qed.

(** X19: in the activities revision the call of a method is not guarded:
    when an action of an activity names no method of [server.methods]
    (a dotted name never does), or a method that throws, the exception
    escapes [performActions].  With the timeout off, or when the method is
    missing, [done] is then never called and the document of the activity
    is not written.  Under a timeout the wrapper of a method that throws
    has left its timer armed: when that action is the last of the list and
    the others are registered methods that do not throw, the timer calls
    back at the deadline, [done] is called with the timeout error of the
    action among the results, and the document is written [failed]. *)
Theorem unguarded_call_escapes srv s act a err now c :
  In a (Activities.actions_of s (hookName act)) →
  match Activities.own_method srv a with
  | None => True
  | Some fn => ∃ n m, fn (hookData act) = Throws n m
  end →
  (∃ r, Activities.escaped srv s act = Some r)
  ∧ (Activities.deadline s = None ∨ Activities.own_method srv a = None →
     (∃ r, (Activities.performActions srv s act).2 = Uncaught r)
     ∧ (Activities.runActivity srv s err now act c).1.1 = c)
  ∧ (∀ pre ms,
       Activities.actions_of s (hookName act) = pre ++ [a] →
       Activities.deadline s = Some ms →
       is_Some (Activities.own_method srv a) →
       Forall (λ b, ∃ g, Activities.own_method srv b = Some g
                         ∧ ∀ n m, g (hookData act) ≠ Throws n m) pre →
       ∃ u, (Activities.performActions srv s act).2 = Done u
            ∧ In (EError a ETIMEDOUT) (upd_results u)
            ∧ (Activities.runActivity srv s None now act c).1.1
              = update (_id act)
                  (set_completed (upd_results u) failed now) c).
Proof.
  intros Hin Hthrow.
  destruct (activities_each_throws srv s (hookData act) _ a
              (mkExec (mkUpdateHook [] None) [] 0 [] None) Hin Hthrow)
    as [r Hr].
  split; [by exists r|]. split.
  - intros Hoff.
    pose proof (activities_each_never_done srv s (hookData act) _ a
                  (mkExec (mkUpdateHook [] None) [] 0 [] None)
                  Hin Hthrow Hoff) as Hu.
    assert (HU : (Activities.performActions srv s act).2 = Uncaught r).
    { unfold Activities.performActions, Activities.start. simpl.
      rewrite Hr. destruct (decide _) as [H0|]; [lia | done]. }
    split; [eauto|].
    unfold Activities.runActivity.
    destruct (Activities.performActions srv s act) as [e2 out]. simpl in HU.
    by subst out.
  - intros pre ms Hacts Hd [fn Hfn] Hpre. rewrite Hfn in Hthrow.
    destruct Hthrow as (n & m & Hfa).
    set (x0 := mkExec (mkUpdateHook [] None) [] 0 [] None).
    set (x1 := Activities.each srv s (hookData act) pre x0).
    destruct (activities_each_answers srv s ms (hookData act) pre x0 Hd Hpre
                eq_refl) as [Hr1 Hu1]. fold x1 in Hr1, Hu1.
    set (tm := mkTimer ms a ETIMEDOUT VUndefined false).
    assert (Hx : Activities.start srv s act
                 = mkExec (updateHook x1) (add_timer tm (timers x1))
                          0 (calls x1 ++ [Invoke a (hookData act)])
                          (Some (Raise n m))).
    { unfold Activities.start. rewrite Hacts, activities_each_app.
      fold x0. fold x1. unfold Activities.each. simpl.
      unfold Activities.iteratee, Activities.actionCall, Activities.leftover,
        Activities.thrown.
      rewrite Hr1, Hfn, Hd, Hfa. simpl. by rewrite Hu1. }
    assert (Ht1 : tracks (updateHook x1)).
    { apply activities_each_tracks. reflexivity. }
    eexists. split; [|split].
    + unfold Activities.performActions. rewrite Hx. simpl. reflexivity.
    + rewrite fire_results. apply in_or_app. right.
      change (EError a ETIMEDOUT) with (timer_entry tm).
        apply (in_map timer_entry _ tm).
      apply (fired_live _ _ tm); [lia| |reflexivity].
        apply add_timer_In. by left.
    + unfold Activities.runActivity, Activities.performActions.
      rewrite Hx. simpl. f_equal. f_equal.
      eapply error_entry_fails.
      * by apply fire_tracks.
      * rewrite fire_results. apply in_or_app. right.
        change (EError a ETIMEDOUT) with (timer_entry tm).
        apply (in_map timer_entry _ tm).
        apply (fired_live _ _ tm); [lia| |reflexivity].
        apply add_timer_In. by left.
      * done.
Qed.

(** The last action of the activity throws under a timeout of 30 ms: the
    exception escapes, and at 30 ms [done] is called all the same. *)
Lemma done_after_escape :
  Activities.escaped Cases.throwing_server Cases.audit_first Scenario.job
  = Some (Raise "Error" "boom")
  ∧ (Activities.performActions Cases.throwing_server Cases.audit_first
       Scenario.job).2
    = Done (mkUpdateHook [EOutput "logAudit" (VStr "logged");
                          EError "sendEmail" ETIMEDOUT] (Some failed)).
Proof. split; vm_compute; reflexivity. Qed.

Lemma unguarded_call_escapes_witness :
  ∃ r, (Activities.performActions Cases.bare_server Cases.activity_settings
          Scenario.job).2 = Uncaught r.
Proof.
  exact (proj1 (proj1 (proj2 (unguarded_call_escapes Cases.bare_server
                  Cases.activity_settings Scenario.job "sendEmail" None 7
                  Cases.store
                  ltac:(vm_compute; left; reflexivity)
                  ltac:(vm_compute; exact I)))
                  ltac:(right; vm_compute; reflexivity))).
Defined.

(** ** A cycle that never calls back *)

Lemma iteratee_name_kept srv s data a x :
  action_name (iteratee srv s data a x).1 = action_name a.
Proof.
  destruct (raised x) as [r|] eqn:Hr.
  { by rewrite (iteratee_raised _ _ _ _ _ _ Hr). }
  rewrite iteratee_eq by done. by destruct a.
Qed.

Lemma each_names_kept srv s data actions : ∀ x,
  map action_name (each srv s data actions x).1 = map action_name actions.
Proof.
  induction actions as [|a rest IH]; intros x; simpl; [done|].
  pose proof (iteratee_name_kept srv s data a x) as Ha.
  destruct (iteratee srv s data a x) as [a' x'].
  specialize (IH x'). destruct (each srv s data rest x') as [rest' x''].
  simpl in *. by rewrite Ha, IH.
Qed.

Lemma performActions_names_kept srv s h name :
  map action_name (actions_of (performActions srv s h).1.1 name)
  = map action_name (actions_of s name).
Proof.
  unfold performActions, start.
  pose proof (each_names_kept srv s (hookData h) (actions_of s (hookName h))
                (mkExec (mkUpdateHook [] None) [] 0 [] None)) as Hk.
  destruct (each _ _ _ _ _) as [acts' x]. simpl in *.
  destruct (hooks s !! hookName h) as [acts|] eqn:Hh; [|done].
  unfold actions_of in *. simpl.
  destruct (decide (name = hookName h)) as [->|Hne].
  - rewrite lookup_insert_eq, Hh in *. done.
  - by rewrite lookup_insert_ne.
Qed.

Lemma executeHook_settings srv s f now h c :
  run_settings (executeHook srv s f now h c) = (performActions srv s h).1.1.
Proof.
  unfold executeHook. destruct (logHook _ _ _ _) as [c1 e1].
  destruct (performActions srv s h) as [[s' e2] [u|u|r]]; simpl; [|done..].
  by destruct (completeHook _ _ _ _ _).
Qed.

Lemma executeHook_no_error srv s now h c :
  run_error (executeHook srv s no_faults now h c) = None.
Proof.
  unfold executeHook. destruct (logHook _ _ _ _) as [c1 e1].
  by destruct (performActions srv s h) as [[s' e2] [u|u|r]].
Qed.

Lemma batch_callback_none outs :
  Forall (λ r : Outcome * option JsVal, r.2 = None) outs →
  Exists (λ r : Outcome * option JsVal, is_done r.1 = false) outs →
  batch_callback outs = None.
Proof.
  intros Hne Hex. unfold batch_callback.
  assert (Hfind : List.find (λ r : Outcome * option JsVal,
                               bool_decide (is_Some r.2)) outs = None).
  { clear Hex. induction Hne as [|r outs Hr _ IH]; simpl; [done|].
    rewrite Hr. rewrite bool_decide_eq_false_2; [done|]. by intros [? ?]. }
  rewrite Hfind.
  assert (Hall : forallb (λ r : Outcome * option JsVal, is_done r.1) outs
                 = false).
  { clear Hne Hfind. induction Hex as [r outs Hr|r outs _ IH]; simpl.
    - by rewrite Hr.
    - rewrite IH. apply andb_false_r. }
  by rewrite Hall.
Qed.

(** A call expression among the actions of a name that [str2fn] never
    answers for, when given the payload [data]. *)
Lemma silent_call_expression srv s h nm :
  In nm (map action_name (actions_of s (hookName h))) →
  is_call_expression nm = true →
  str2fn_execute srv nm (object_assign ∅ (hookData h)) = Never →
  ∀ u, (performActions srv s h).2 ≠ Done u.
Proof.
  intros Hin Hc Hn. apply in_map_iff in Hin as (a & <- & Hin).
  apply (silent_never_done srv s h a Hin). unfold silent. by rewrite Hc.
Qed.

Lemma execute_stalls srv now announce h nm batch : ∀ s c,
  In h batch →
  In nm (map action_name (actions_of s (hookName h))) →
  is_call_expression nm = true →
  str2fn_execute srv nm (object_assign ∅ (hookData h)) = Never →
  Forall (λ r : Outcome * option JsVal, r.2 = None)
         (execute srv s (λ _, no_faults) now announce batch c).2
  ∧ Exists (λ r : Outcome * option JsVal, is_done r.1 = false)
           (execute srv s (λ _, no_faults) now announce batch c).2.
Proof.
  induction batch as [|h0 rest IH]; intros s c; [intros []|].
  intros Hin Hnm Hc Hn. simpl.
  pose proof (executeHook_outcome srv s no_faults now h0 c) as Ho.
  pose proof (executeHook_settings srv s no_faults now h0 c) as Hs.
  pose proof (executeHook_no_error srv s now h0 c) as He.
  assert (Hrest : Forall (λ r : Outcome * option JsVal, r.2 = None)
                    (execute srv (run_settings
                                    (executeHook srv s no_faults now h0 c))
                       (λ _, no_faults) now announce rest
                       (run_store (executeHook srv s no_faults now h0 c))).2).
  { clear. generalize (run_settings (executeHook srv s no_faults now h0 c))
             (run_store (executeHook srv s no_faults now h0 c)).
    induction rest as [|h1 rest IH]; intros s1 c1; simpl; [constructor|].
    specialize (IH (run_settings (executeHook srv s1 no_faults now h1 c1))
                   (run_store (executeHook srv s1 no_faults now h1 c1))).
    pose proof (executeHook_no_error srv s1 now h1 c1) as He.
    destruct (execute srv _ _ now announce rest _) as [[[s2 c2] e2] outs].
    simpl in *. by constructor. }
  destruct Hin as [->|Hin].
  - destruct (execute srv _ _ now announce rest _) as [[[s2 c2] e2] outs].
    simpl in *. split; [by constructor|].
    apply Exists_cons_hd. simpl. rewrite Ho.
    pose proof (silent_call_expression srv s h nm Hnm Hc Hn) as Hnd.
    destruct ((performActions srv s h).2) as [u|u|r]; [|done..].
    by destruct (Hnd u).
  - assert (Hnm' : In nm (map action_name
                            (actions_of (run_settings
                                           (executeHook srv s no_faults now h0 c))
                               (hookName h)))).
    { by rewrite Hs, performActions_names_kept. }
    destruct (IH _ (run_store (executeHook srv s no_faults now h0 c))
                Hin Hnm' Hc Hn) as [_ Hex].
    destruct (execute srv _ _ now announce rest _) as [[[s2 c2] e2] outs].
    simpl in *. split; [by constructor|]. by apply Exists_cons_tl.
Qed.

(** X21: when a waiting hook has, among its actions, a call expression
    that [str2fn] never answers for, the cycle of [updateHooks] that
    fetches it never calls back (the store working), whatever the timeout
    and whatever the other hooks of the batch do; [timer] is therefore
    not armed again, and the polling stops. *)
Theorem stalled_hook_halts_the_poller srv s now c h nm :
  In h c → status h = waiting →
  In nm (map action_name (actions_of s (hookName h))) →
  is_call_expression nm = true →
  str2fn_execute srv nm (object_assign ∅ (hookData h)) = Never →
  tick_allDone (updateHooks srv s (λ _, no_faults) None now c) = None.
Proof.
  intros Hin Hw Hnm Hc Hn. unfold updateHooks.
  assert (Hf : In h (List.filter (λ d, bool_decide (status d = waiting)) c)).
  { apply filter_In. split; [done|]. by apply bool_decide_eq_true. }
  destruct (List.filter (λ d, bool_decide (status d = waiting)) c)
    as [|h0 batch] eqn:Hb; [done|].
  destruct (execute_stalls srv now false h nm (h0 :: batch) s c Hf Hnm Hc Hn)
    as [Hne Hex].
  destruct (execute srv s _ now false (h0 :: batch) c) as [[[s' c'] e] outs].
  simpl in *. by apply batch_callback_none.
Qed.

Lemma stalled_hook_halts_the_poller_witness :
  tick_allDone
    (updateHooks Scenario.hung_server Scenario.notify_settings
       (λ _, no_faults) None 7 Cases.store) = None.
Proof.
  exact (stalled_hook_halts_the_poller Scenario.hung_server
           Scenario.notify_settings 7 Cases.store Scenario.notify_job
           "sms.send(42)"
           ltac:(vm_compute; right; right; left; reflexivity) eq_refl
           ltac:(vm_compute; left; reflexivity) eq_refl eq_refl).
Defined.
